(** * Layered audio playback of the narration dashboard (src/src/App.jsx)

    A shallow embedding of the [App] component: the Fisher-Yates helper
    [shuffleArray], the background-music playlist ([startPlaylist],
    [playTrackInQueue], [stopBgm], [handleStopClick]), the sound board
    ([playSfx]), the narrator ([handleNarrate], [playAudioFromBase64]) and
    the ducking effect.

    Conventions.
    - JavaScript numbers that carry a volume or a [Math.random()] draw are
      rationals ([Q]); indices, counters and milliseconds are [nat].
    - [null] and [undefined] are [None].
    - Every [Howl] object lives in a store (a list, the position is the
      identity of the object); the refs of the component hold positions.
    - A function of the component body closes over the React state of the
      render it was created in.  The captured value is an explicit argument
      ([rendered]) of the functions that read it. *)

From Stdlib Require Import QArith Qround.
From stdpp Require Import gmap strings list.

Close Scope Q_scope.
Open Scope nat_scope.

(** ** The random source *)

(** A result of [Math.random()]: a number in the half-open interval
    from 0 (inclusive) to 1 (exclusive). *)
Record UnitInterval := mkUnit {
  value : Q;
  in_range : Qle_bool 0 value && negb (Qle_bool 1 value) = true
}.

(** [Math.floor(r * (i + 1))] *)
Definition random_index (r : UnitInterval) (i : nat) : nat :=
  Z.to_nat (Qfloor (value r * inject_Z (Z.of_nat (i + 1)))).

(** ** Arrays *)

Section Arrays.
Context {A : Type}.

(** [[a[i], a[j]] = [a[j], a[i]]]: the right-hand side is read first,
    then [a[i]] and [a[j]] are written in that order.  Both positions are
    inside the array wherever [shuffleArray] swaps ([random_index_le]
    below); outside, JavaScript would read [undefined] and extend the
    array, which a [list A] cannot hold, and the array is returned as
    it is. *)
Definition swap (i j : nat) (a : list A) : list A :=
  match a !! i, a !! j with
  | Some x, Some y => <[j := x]> (<[i := y]> a)
  | _, _ => a
  end.

Section Shuffle.
(** [Math_random n] is the result of the [n]-th call of [Math.random()]. *)
Variable Math_random : nat → UnitInterval.

(** The loop [for (let i = ...; i > 0; i--)], entered with counter [i],
    after [calls] calls of [Math.random()]. *)
Fixpoint shuffle_loop (i calls : nat) (newArr : list A) : list A * nat :=
  match i with
  | 0 => (newArr, calls)
  | S i' =>
      let j := random_index (Math_random calls) i in
      shuffle_loop i' (S calls) (swap i j newArr)
  end.

(** [shuffleArray], on array values. *)
Definition shuffleArray (array : list A) (calls : nat) : list A * nat :=
  let newArr := array in
  shuffle_loop (length newArr - 1) calls newArr.

(** *** The same function on array objects

    Arrays are objects; [heap] maps a reference to the contents of the
    array it denotes.  [[...array]] allocates. *)
Definition spread (array : nat) (heap : list (list A)) : nat * list (list A) :=
  (length heap, heap ++ [default [] (heap !! array)]).

Fixpoint shuffle_loop_ref (i calls newArr : nat) (heap : list (list A))
  : list (list A) * nat :=
  match i with
  | 0 => (heap, calls)
  | S i' =>
      let j := random_index (Math_random calls) i in
      shuffle_loop_ref i' (S calls) newArr (alter (swap i j) newArr heap)
  end.

Definition shuffleArray_ref (array calls : nat) (heap : list (list A))
  : nat * list (list A) * nat :=
  let '(newArr, heap1) := spread array heap in
  let len := length (default [] (heap1 !! newArr)) in
  let '(heap2, calls') := shuffle_loop_ref (len - 1) calls newArr heap1 in
  (newArr, heap2, calls').
End Shuffle.
End Arrays.

(** ** Howl objects (howler.js), as far as the component uses them *)

(** What a [Howl] plays: a track URL taken from the queue ([undefined]
    when the cursor is outside the queue), or the object URL of a decoded
    narration. *)
Inductive Source :=
  | TrackUrl (url : option string)
  | BlobUrl (byteArray : list nat).

(** The listeners the component registers for the [end] event. *)
Inductive EndListener :=
  | NextTrack (rendered : option string) (category : string)
      (* [onend] of [playTrackInQueue(category)], created by the render
         whose [currentBgmCategory] was [rendered] *)
  | SpeakingOff.
      (* [onend: () => setIsSpeaking(false)] *)

(** [fade(from, to, len)] called at time [fade_start] (milliseconds). *)
Record Fade := mkFade {
  fade_from : Q;
  fade_to : Q;
  fade_len : nat;
  fade_start : nat
}.

Record Howl := mkHowl {
  src : Source;
  html5 : bool;
  volume : Q;              (* the [volume] option of the constructor *)
  onend : option EndListener;
  onplay : bool;           (* [onplay: () => setIsSpeaking(true)] is registered *)
  playing : bool;          (* [play()] was called, no [stop()] since *)
  fading : option Fade;    (* the last [fade] requested *)
  unloaded : bool
}.

(** The volume a linear ramp has reached at time [t]. *)
Definition fade_volume (f : Fade) (t : nat) : Q :=
  if fade_start f + fade_len f <=? t then fade_to f
  else (fade_from f + (fade_to f - fade_from f)
        * (Z.of_nat (t - fade_start f) # Pos.of_nat (fade_len f)))%Q.

(** [h.volume()] at time [t]. *)
Definition current_volume (t : nat) (h : Howl) : Q :=
  match fading h with
  | Some f => fade_volume f t
  | None => volume h
  end.

(** The volume the [Howl] is heading to. *)
Definition target_volume (h : Howl) : Q :=
  match fading h with
  | Some f => fade_to f
  | None => volume h
  end.

Definition howl_play (h : Howl) : Howl :=
  mkHowl (src h) (html5 h) (volume h) (onend h) (onplay h) true (fading h) (unloaded h).

Definition howl_fade (from to : Q) (len t : nat) (h : Howl) : Howl :=
  mkHowl (src h) (html5 h) (volume h) (onend h) (onplay h) (playing h)
         (Some (mkFade from to len t)) (unloaded h).

(** [h.off('end')]: every listener of the [end] event is removed. *)
Definition howl_off_end (h : Howl) : Howl :=
  mkHowl (src h) (html5 h) (volume h) None (onplay h) (playing h) (fading h) (unloaded h).

Definition howl_stop (h : Howl) : Howl :=
  mkHowl (src h) (html5 h) (volume h) (onend h) (onplay h) false (fading h) (unloaded h).

(** The sound has played to its end (it does not loop). *)
Definition howl_finish (h : Howl) : Howl :=
  mkHowl (src h) (html5 h) (volume h) (onend h) (onplay h) false (fading h) (unloaded h).

(** [h.unload()]: playback stops, the listeners are dropped and the audio
    resource is released. *)
Definition howl_unload (h : Howl) : Howl :=
  mkHowl (src h) (html5 h) (volume h) None false false (fading h) true.

(** ** The component *)

Record App := mkApp {
  (* useState *)
  apiKey : string;
  currentBgmCategory : option string;
  narratorText : string;
  isSpeaking : bool;
  isLoadingTTS : bool;
  (* useRef *)
  bgmRef : option nat;
  narratorRef : option nat;
  queueRef : list string;
  queueIndexRef : nat;
  (* the page around the component *)
  howls : list Howl;             (* every [new Howl], in creation order *)
  timers : list (nat * nat);     (* [setTimeout]: due time, the [oldSound] to stop and unload *)
  now : nat;                     (* milliseconds *)
  random_calls : nat;            (* calls of [Math.random()] so far *)
  alerts : list string;          (* [alert] messages shown *)
  requests : list (string * string);  (* [fetch] calls: key and text *)
  localStorage : option string   (* the item GOOGLE_API_KEY *)
}.

Definition set_apiKey (v : string) (s : App) : App :=
  mkApp v (currentBgmCategory s) (narratorText s) (isSpeaking s) (isLoadingTTS s)
        (bgmRef s) (narratorRef s) (queueRef s) (queueIndexRef s)
        (howls s) (timers s) (now s) (random_calls s) (alerts s) (requests s) (localStorage s).

Definition setCurrentBgmCategory (v : option string) (s : App) : App :=
  mkApp (apiKey s) v (narratorText s) (isSpeaking s) (isLoadingTTS s)
        (bgmRef s) (narratorRef s) (queueRef s) (queueIndexRef s)
        (howls s) (timers s) (now s) (random_calls s) (alerts s) (requests s) (localStorage s).

Definition setNarratorText (v : string) (s : App) : App :=
  mkApp (apiKey s) (currentBgmCategory s) v (isSpeaking s) (isLoadingTTS s)
        (bgmRef s) (narratorRef s) (queueRef s) (queueIndexRef s)
        (howls s) (timers s) (now s) (random_calls s) (alerts s) (requests s) (localStorage s).

Definition setIsSpeaking (v : bool) (s : App) : App :=
  mkApp (apiKey s) (currentBgmCategory s) (narratorText s) v (isLoadingTTS s)
        (bgmRef s) (narratorRef s) (queueRef s) (queueIndexRef s)
        (howls s) (timers s) (now s) (random_calls s) (alerts s) (requests s) (localStorage s).

Definition setIsLoadingTTS (v : bool) (s : App) : App :=
  mkApp (apiKey s) (currentBgmCategory s) (narratorText s) (isSpeaking s) v
        (bgmRef s) (narratorRef s) (queueRef s) (queueIndexRef s)
        (howls s) (timers s) (now s) (random_calls s) (alerts s) (requests s) (localStorage s).

Definition set_bgmRef (v : option nat) (s : App) : App :=
  mkApp (apiKey s) (currentBgmCategory s) (narratorText s) (isSpeaking s) (isLoadingTTS s)
        v (narratorRef s) (queueRef s) (queueIndexRef s)
        (howls s) (timers s) (now s) (random_calls s) (alerts s) (requests s) (localStorage s).

Definition set_narratorRef (v : option nat) (s : App) : App :=
  mkApp (apiKey s) (currentBgmCategory s) (narratorText s) (isSpeaking s) (isLoadingTTS s)
        (bgmRef s) v (queueRef s) (queueIndexRef s)
        (howls s) (timers s) (now s) (random_calls s) (alerts s) (requests s) (localStorage s).

(** [queueRef.current = q] together with the [Math.random()] calls that
    produced [q]. *)
Definition set_queueRef (v : list string * nat) (s : App) : App :=
  mkApp (apiKey s) (currentBgmCategory s) (narratorText s) (isSpeaking s) (isLoadingTTS s)
        (bgmRef s) (narratorRef s) v.1 (queueIndexRef s)
        (howls s) (timers s) (now s) v.2 (alerts s) (requests s) (localStorage s).

Definition set_queueIndexRef (v : nat) (s : App) : App :=
  mkApp (apiKey s) (currentBgmCategory s) (narratorText s) (isSpeaking s) (isLoadingTTS s)
        (bgmRef s) (narratorRef s) (queueRef s) v
        (howls s) (timers s) (now s) (random_calls s) (alerts s) (requests s) (localStorage s).

Definition set_howls (v : list Howl) (s : App) : App :=
  mkApp (apiKey s) (currentBgmCategory s) (narratorText s) (isSpeaking s) (isLoadingTTS s)
        (bgmRef s) (narratorRef s) (queueRef s) (queueIndexRef s)
        v (timers s) (now s) (random_calls s) (alerts s) (requests s) (localStorage s).

Definition set_timers (v : list (nat * nat)) (s : App) : App :=
  mkApp (apiKey s) (currentBgmCategory s) (narratorText s) (isSpeaking s) (isLoadingTTS s)
        (bgmRef s) (narratorRef s) (queueRef s) (queueIndexRef s)
        (howls s) v (now s) (random_calls s) (alerts s) (requests s) (localStorage s).

Definition set_now (v : nat) (s : App) : App :=
  mkApp (apiKey s) (currentBgmCategory s) (narratorText s) (isSpeaking s) (isLoadingTTS s)
        (bgmRef s) (narratorRef s) (queueRef s) (queueIndexRef s)
        (howls s) (timers s) v (random_calls s) (alerts s) (requests s) (localStorage s).

Definition alert (message : string) (s : App) : App :=
  mkApp (apiKey s) (currentBgmCategory s) (narratorText s) (isSpeaking s) (isLoadingTTS s)
        (bgmRef s) (narratorRef s) (queueRef s) (queueIndexRef s)
        (howls s) (timers s) (now s) (random_calls s) (alerts s ++ [message]) (requests s)
        (localStorage s).

Definition fetch (key text : string) (s : App) : App :=
  mkApp (apiKey s) (currentBgmCategory s) (narratorText s) (isSpeaking s) (isLoadingTTS s)
        (bgmRef s) (narratorRef s) (queueRef s) (queueIndexRef s)
        (howls s) (timers s) (now s) (random_calls s) (alerts s) (requests s ++ [(key, text)])
        (localStorage s).

Definition localStorage_setItem (v : string) (s : App) : App :=
  mkApp (apiKey s) (currentBgmCategory s) (narratorText s) (isSpeaking s) (isLoadingTTS s)
        (bgmRef s) (narratorRef s) (queueRef s) (queueIndexRef s)
        (howls s) (timers s) (now s) (random_calls s) (alerts s) (requests s) (Some v).

(** A method call on the [Howl] at position [id]. *)
Definition on_howl (f : Howl → Howl) (id : nat) (s : App) : App :=
  set_howls (alter f id (howls s)) s.

(** [new Howl(...)]: the object is appended; its position is returned by
    [next_howl] beforehand. *)
Definition next_howl (s : App) : nat := length (howls s).
Definition new_Howl (h : Howl) (s : App) : App := set_howls (howls s ++ [h]) s.

(** The asset configuration: playlists per category, one file per effect.
    A lookup [ASSETS.bgm[category]] finds the own properties of the object;
    names inherited from [Object.prototype] are not category
    identifiers and are left out. *)
Record Assets := mkAssets {
  bgm : gmap string (list string);
  sfx : gmap string string
}.

Definition ASSETS : Assets :=
  mkAssets
    (<["battle" := ["/assets/battle1.mp3"; "/assets/battle2.mp3"]]>
       (<["thrill" := ["/assets/thrill_theme.mp3"]]>
          (<["serene" := ["/assets/rain.mp3"; "/assets/wind.mp3"]]> ∅)))
    (<["sword" := "/assets/sword.mp3"]>
       (<["spell" := "/assets/magic.mp3"]>
          (<["explosion" := "/assets/boom.mp3"]>
             (<["door" := "/assets/door_creak.mp3"]> ∅)))).

(** What the narration provider call comes back with. *)
Inductive Reply :=
  | ReplyError (message : string)
      (* the body has an [error] object with this [message] *)
  | ReplyAudio (byteArray : list nat)
      (* the body has an [audioContent] that [atob] decodes to these bytes *)
  | ReplyFailure (message : string).
      (* [fetch], [response.json()] or [atob] threw an error with this [message] *)

(** JavaScript truthiness of a string-or-null. *)
Definition truthy (v : option string) : bool :=
  match v with
  | Some c => bool_decide (c ≠ "")
  | None => false
  end.

Section Component.
Variable assets : Assets.
Variable Math_random : nat → UnitInterval.

(** *** Background music *)

Definition stopBgm (s : App) : App :=
  match bgmRef s with
  | Some b =>
      let s := on_howl howl_off_end b s in
      let s := on_howl (fun h => howl_fade (current_volume (now s) h) 0 1000 (now s) h) b s in
      let oldSound := b in
      let s := set_timers (timers s ++ [(now s + 1000, oldSound)]) s in
      set_bgmRef None s
  | None => s
  end.

(** The guard [currentBgmCategory && currentBgmCategory !== category] of
    [playTrackInQueue]; [rendered] is the [currentBgmCategory] of the
    render the function belongs to. *)
Definition superseded (rendered : option string) (category : string) : bool :=
  truthy rendered && bool_decide (rendered ≠ Some category).

Definition playTrackInQueue (rendered : option string) (category : string) (s : App) : App :=
  if superseded rendered category then s
  else
    let currentTrackUrl := queueRef s !! queueIndexRef s in
    let sound := next_howl s in
    let s := new_Howl (mkHowl (TrackUrl currentTrackUrl) true 0
                              (Some (NextTrack rendered category)) false false None false) s in
    let s := on_howl howl_play sound s in
    let s := on_howl (howl_fade 0 1 2000 (now s)) sound s in
    set_bgmRef (Some sound) s.

(** The [onend] listener of a music [Howl]. *)
Definition onend_NextTrack (rendered : option string) (category : string) (s : App) : App :=
  let s := set_queueIndexRef (queueIndexRef s + 1) s in
  let s := if length (queueRef s) <=? queueIndexRef s
           then set_queueIndexRef 0 s else s in
  playTrackInQueue rendered category s.

(** [startPlaylist(category)] of the render whose state is [s]. *)
Definition startPlaylist (category : string) (s : App) : App :=
  let rendered := currentBgmCategory s in
  let s := stopBgm s in
  match bgm assets !! category with
  | None => s
  | Some [] => s
  | Some tracks =>
      let s := setCurrentBgmCategory (Some category) s in
      let s := set_queueRef (shuffleArray Math_random tracks (random_calls s)) s in
      let s := set_queueIndexRef 0 s in
      playTrackInQueue rendered category s
  end.

Definition handleStopClick (s : App) : App :=
  let s := stopBgm s in
  setCurrentBgmCategory None s.

(** *** Sound effects *)

Definition playSfx (type : string) (s : App) : App :=
  let src := sfx assets !! type in
  if truthy src then
    let id := next_howl s in
    let s := new_Howl (mkHowl (TrackUrl src) false (4 # 5) None false false None false) s in
    on_howl howl_play id s
  else s.

(** *** Narrator *)

Definition playAudioFromBase64 (byteArray : list nat) (s : App) : App :=
  let s := match narratorRef s with
           | Some n => on_howl howl_unload n s
           | None => s
           end in
  let narrator := next_howl s in
  let s := new_Howl (mkHowl (BlobUrl byteArray) false 1 (Some SpeakingOff) true
                            false None false) s in
  let s := on_howl howl_play narrator s in
  set_narratorRef (Some narrator) s.

(** [handleNarrate] up to its [await fetch(...)]. *)
Definition handleNarrate (s : App) : App :=
  if bool_decide (apiKey s = "") then
    alert "Please enter a Google Cloud API Key first." s
  else if bool_decide (narratorText s = "") then s
  else
    let s := setIsLoadingTTS true s in
    fetch (apiKey s) (narratorText s) s.

(** [handleNarrate] from the point where the awaited call settles:
    the rest of [try], [catch] and [finally]. *)
Definition handleNarrate_resume (r : Reply) (s : App) : App :=
  let s := match r with
           | ReplyError message => alert ("Error: " +:+ message) s
           | ReplyAudio byteArray => playAudioFromBase64 byteArray s
           | ReplyFailure message => alert ("Error: " +:+ message) s
           end in
  setIsLoadingTTS false s.

Definition saveKey (val : string) (s : App) : App :=
  let s := set_apiKey val s in
  localStorage_setItem val s.

(** *** Ducking *)

(** The body of the effect. *)
Definition ducking (s : App) : App :=
  match bgmRef s with
  | None => s
  | Some b =>
      let targetVol := if isSpeaking s then (1 # 5)%Q else 1%Q in
      on_howl (fun h => howl_fade (current_volume (now s) h) targetVol 500 (now s) h) b s
  end.

(** The render that follows a handler: the effect runs when one of its
    dependencies [[isSpeaking, currentBgmCategory]] differs from the
    previous render [prev]. *)
Definition render (prev s : App) : App :=
  if bool_decide (isSpeaking prev = isSpeaking s
                  ∧ currentBgmCategory prev = currentBgmCategory s)
  then s else ducking s.

(** *** Events *)

(** [setTimeout] callbacks that are due: [oldSound.stop(); oldSound.unload()]. *)
Fixpoint run_timers (t : nat) (ts : list (nat * nat)) (hs : list Howl)
  : list (nat * nat) * list Howl :=
  match ts with
  | [] => ([], hs)
  | (due, oldSound) :: ts' =>
      if due <=? t then
        run_timers t ts' (alter (fun h => howl_unload (howl_stop h)) oldSound hs)
      else
        let '(rest, hs') := run_timers t ts' hs in
        ((due, oldSound) :: rest, hs')
  end.

Definition elapse (ms : nat) (s : App) : App :=
  let s := set_now (now s + ms) s in
  let '(ts, hs) := run_timers (now s) (timers s) (howls s) in
  set_howls hs (set_timers ts s).

(** The [end] event of the [Howl] at [id]: a sound that is playing
    reaches its end; playback is over and the listener, if the [Howl]
    still has one, runs. *)
Definition emit_end (id : nat) (s : App) : App :=
  match howls s !! id with
  | Some h =>
      if playing h then
        let s := on_howl howl_finish id s in
        match onend h with
        | Some (NextTrack rendered category) => onend_NextTrack rendered category s
        | Some SpeakingOff => setIsSpeaking false s
        | None => s
        end
      else s
  | None => s
  end.

(** The [play] event of the [Howl] at [id]. *)
Definition emit_play (id : nat) (s : App) : App :=
  match howls s !! id with
  | Some h => if onplay h && playing h then setIsSpeaking true s else s
  | None => s
  end.

Inductive Event :=
  | ClickPlaylist (category : string)
  | ClickStop
  | ClickSfx (type : string)
  | ClickNarrate
  | EditKey (val : string)
  | EditText (val : string)
  | Settled (r : Reply)
  | HowlEnd (id : nat)
  | HowlPlay (id : nat)
  | Elapse (ms : nat).

(** One turn of the event loop: the handler, then the render. *)
Definition handle (e : Event) (s : App) : App :=
  match e with
  | ClickPlaylist category => startPlaylist category s
  | ClickStop => handleStopClick s
  | ClickSfx type => playSfx type s
  | ClickNarrate =>
      (* the button is [disabled={isLoadingTTS || isSpeaking}] *)
      if isLoadingTTS s || isSpeaking s then s else handleNarrate s
  | EditKey val => saveKey val s
  | EditText val => setNarratorText val s
  | Settled r =>
      (* only a call in flight settles *)
      if isLoadingTTS s then handleNarrate_resume r s else s
  | HowlEnd id => emit_end id s
  | HowlPlay id => emit_play id s
  | Elapse ms => elapse ms s
  end.

Definition step (e : Event) (s : App) : App := render s (handle e s).

(** The track of the active music [Howl] plays to its end. *)
Definition complete_current (s : App) : App :=
  match bgmRef s with
  | Some b => step (HowlEnd b) s
  | None => s
  end.

Definition run (es : list Event) (s : App) : App := foldl (fun s e => step e s) s es.

(** The component when it mounts; [stored] is
    [localStorage.getItem('GOOGLE_API_KEY')], and [stored || ''] is the
    stored string or the empty one. *)
Definition mount (stored : option string) : App :=
  mkApp (default "" stored) None "" false false
        None None [] 0 [] [] 0 0 [] [] stored.

Definition reachable (s : App) : Prop :=
  ∃ stored es, s = run es (mount stored).
End Component.

Arguments set_apiKey _ _ /.
Arguments setCurrentBgmCategory _ _ /.
Arguments setNarratorText _ _ /.
Arguments setIsSpeaking _ _ /.
Arguments setIsLoadingTTS _ _ /.
Arguments set_bgmRef _ _ /.
Arguments set_narratorRef _ _ /.
Arguments set_queueRef _ _ /.
Arguments set_queueIndexRef _ _ /.
Arguments set_howls _ _ /.
Arguments set_timers _ _ /.
Arguments set_now _ _ /.
Arguments alert _ _ /.
Arguments fetch _ _ _ /.
Arguments localStorage_setItem _ _ /.
Arguments on_howl _ _ _ /.
Arguments new_Howl _ _ /.
Arguments next_howl _ /.

(** The state of one [Howl] of the store. *)
Definition howl_at (id : nat) (s : App) : option Howl := howls s !! id.

(** ** Sample inputs *)

Definition draw_0 : UnitInterval := mkUnit 0 eq_refl.
Definition draw_half : UnitInterval := mkUnit (1 # 2) eq_refl.
Definition draw_high : UnitInterval := mkUnit (9 # 10) eq_refl.

(** A random source that always answers 0.5, and one that cycles
    through 0.9, 0, 0.5. *)
Definition always_half (n : nat) : UnitInterval := draw_half.
Definition cycling (n : nat) : UnitInterval :=
  match n mod 3 with
  | 0 => draw_high
  | 1 => draw_0
  | _ => draw_half
  end.

(** Music has been started from the idle state: "battle" is playing. *)
Definition battle_playing : App :=
  step ASSETS cycling (ClickPlaylist "battle") (mount None).

(** The narrator speaks over the battle playlist. *)
Definition narrating_over_battle : App :=
  run ASSETS cycling
      [EditKey "key"; EditText "The gate opens."; ClickNarrate;
       Settled (ReplyAudio [73; 68; 51]); HowlPlay 1; Elapse 700]
      battle_playing.


(** ** Vocabulary of the properties *)

(** What may happen to a [Howl] once it exists: listeners are only ever
    removed, a sound that is over does not start again, and a released
    resource stays released. *)
Definition later_of (h h' : Howl) : Prop :=
  (∀ l, onend h' = Some l → onend h = Some l)
  ∧ (playing h' = true → playing h = true)
  ∧ (unloaded h = true → unloaded h' = true)
  ∧ (onplay h' = true → onplay h = true).

(** The stores [hs'] that a handler can leave behind when it starts from
    [hs]: the [Howl]s of [hs] at their positions, each one possibly later
    in its life, followed by the new ones. *)
Definition store_grows (hs hs' : list Howl) : Prop :=
  ∀ id h, hs !! id = Some h → ∃ h', hs' !! id = Some h' ∧ later_of h h'.

(** The [Howl] that [playTrackInQueue] has built when it returns: created
    at volume 0, started, and fading in to full volume over 2000 ms. *)
Definition music_howl (url : option string) (rendered : option string)
    (category : string) (t : nat) : Howl :=
  mkHowl (TrackUrl url) true 0 (Some (NextTrack rendered category)) false true
         (Some (mkFade 0 1 2000 t)) false.

(** The [Howl] that [stopBgm] leaves behind: no [end] listener, fading
    out to silence over 1000 ms. *)
Definition fading_out (t : nat) (h : Howl) : Howl :=
  howl_fade (current_volume t h) 0 1000 t (howl_off_end h).

(** A music listener is sound when its guard lets it through, and, as
    long as its [Howl] plays, that [Howl] is the one in [bgmRef] and was
    created for the current category. *)
Definition listener_ok (s : App) (id : nat) (h : Howl) : Prop :=
  ∀ rendered category,
    onend h = Some (NextTrack rendered category) →
    superseded rendered category = false
    ∧ (playing h = true → bgmRef s = Some id ∧ currentBgmCategory s = Some category).

Definition sequencer_inv (s : App) : Prop :=
  (∀ id h, howls s !! id = Some h → listener_ok s id h)
  ∧ (∀ b, bgmRef s = Some b → b < length (howls s)).

(** No music listener belongs to a [Howl] that is playing: the state
    right after [stopBgm], and right after the last track has ended. *)
Definition quiet (s : App) : Prop :=
  (∀ id h rendered category,
      howls s !! id = Some h → onend h = Some (NextTrack rendered category) →
      superseded rendered category = false ∧ playing h = false)
  ∧ (∀ b, bgmRef s = Some b → b < length (howls s)).



(** The [Howl] that [playSfx] has built when it returns. *)
Definition sfx_howl (url : string) : Howl :=
  mkHowl (TrackUrl (Some url)) false (4 # 5) None false true None false.

(** The [Howl] that [playAudioFromBase64] has built when it returns. *)
Definition narrator_howl (byteArray : list nat) : Howl :=
  mkHowl (BlobUrl byteArray) false 1 (Some SpeakingOff) true true None false.

(** The target of the ducking effect. *)
Definition ducking_target (s : App) : Q := if isSpeaking s then (1 # 5)%Q else 1%Q.

(** The narrator's desk: the part of the state that music, sound effects
    and the clock leave alone. *)
Definition same_desk (s s' : App) : Prop :=
  apiKey s' = apiKey s ∧ narratorText s' = narratorText s
  ∧ isLoadingTTS s' = isLoadingTTS s ∧ requests s' = requests s
  ∧ localStorage s' = localStorage s ∧ alerts s' = alerts s.

(** An event of the narrator's desk. *)
Definition desk_event (e : Event) : bool :=
  match e with
  | ClickNarrate | EditKey _ | EditText _ | Settled _ => true
  | _ => false
  end.

(** The [Howl] plays decoded narration or a file of the configuration. *)
Definition is_configured (assets : Assets) (h : Howl) : Prop :=
  match src h with
  | BlobUrl _ => True
  | TrackUrl url =>
      ∃ file, url = Some file
              ∧ ((∃ category tracks, bgm assets !! category = Some tracks ∧ file ∈ tracks)
                 ∨ (∃ type, sfx assets !! type = Some file))
  end.

(** The music [Howl] at [b] is alive: it plays the track under the
    cursor, has not been released and carries a music listener. *)
Definition music_live (s : App) (b : nat) : Prop :=
  ∃ h rendered category,
    howls s !! b = Some h ∧ playing h = true ∧ unloaded h = false ∧ onplay h = false
    ∧ onend h = Some (NextTrack rendered category)
    ∧ src h = TrackUrl (queueRef s !! queueIndexRef s).

(** The narrator [Howl] at [n] has its resource and both listeners. *)
Definition narrator_kept (s : App) (n : nat) : Prop :=
  ∃ h byteArray,
    howls s !! n = Some h ∧ src h = BlobUrl byteArray ∧ unloaded h = false
    ∧ onend h = Some SpeakingOff ∧ onplay h = true.

Definition music_inv (s : App) : Prop :=
  ∀ b, bgmRef s = Some b → music_live s b.

Definition narrator_inv (s : App) : Prop :=
  (∀ n, narratorRef s = Some n → narrator_kept s n)
  ∧ (∀ id h, howls s !! id = Some h →
       onend h = Some SpeakingOff ∨ onplay h = true → narratorRef s = Some id).

Definition timers_inv (s : App) : Prop :=
  ∀ due id, (due, id) ∈ timers s →
    now s < due ∧ ∃ h, howls s !! id = Some h ∧ onend h = None ∧ onplay h = false.

Definition queue_inv (assets : Assets) (s : App) : Prop :=
  (∀ category, currentBgmCategory s = Some category →
     ∃ tracks, bgm assets !! category = Some tracks ∧ tracks ≠ []
               ∧ queueRef s ≡ₚ tracks)
  ∧ (queueIndexRef s < length (queueRef s)
     ∨ (queueRef s = [] ∧ queueIndexRef s = 0)).

Definition sources_inv (assets : Assets) (s : App) : Prop :=
  ∀ id h, howls s !! id = Some h → is_configured assets h.

(** What holds also between two tracks, when [bgmRef] is stale. *)
Definition between_tracks (assets : Assets) (s : App) : Prop :=
  narrator_inv s ∧ timers_inv s ∧ queue_inv assets s ∧ sources_inv assets s.

(** What holds in every state the component can reach. *)
Definition well_formed (assets : Assets) (s : App) : Prop :=
  sequencer_inv s ∧ music_inv s ∧ between_tracks assets s.

(** The timers that are due at time [t] and stop the [Howl] at [id]. *)
Definition due_for (t id : nat) (ts : list (nat * nat)) : bool :=
  existsb (λ '(due, oldSound), (due <=? t) && (oldSound =? id)) ts.

(** What the music [Howl] in [bgmRef] plays. *)
Definition now_playing (s : App) : option Source :=
  bgmRef s ≫= λ b, src <$> howls s !! b.

Arguments stopBgm : simpl never.
Arguments playTrackInQueue : simpl never.
Arguments shuffleArray : simpl never.
Arguments startPlaylist : simpl never.
Arguments ducking : simpl never.
Arguments render : simpl never.
Arguments elapse : simpl never.
Arguments playAudioFromBase64 : simpl never.

(** * Properties *)

(** ** The shuffle *)

Lemma random_index_le (r : UnitInterval) (i : nat) : random_index r i ≤ i.
Proof.
  unfold random_index.
  destruct r as [v Hv]; cbn [value].
  apply andb_prop in Hv as [H0 H1].
  apply Qle_bool_imp_le in H0.
  assert (Hlt : (v < 1)%Q).
  { apply Qnot_le_lt. intros Hle. apply Qle_bool_iff in Hle.
    rewrite Hle in H1. discriminate. }
  set (n := Z.of_nat (i + 1)).
  assert (Hn : (0 < n)%Z) by (subst n; lia).
  assert (Hup : (Qfloor (v * inject_Z n) < n)%Z).
  { assert (Hx : (v * inject_Z n < inject_Z n)%Q).
    { rewrite <- (Qmult_1_l (inject_Z n)) at 2.
      apply Qmult_lt_compat_r; [| exact Hlt].
      replace 0%Q with (inject_Z 0) by reflexivity. rewrite <- Zlt_Qlt. exact Hn. }
    pose proof (Qfloor_le (v * inject_Z n)) as Hf.
    rewrite Zlt_Qlt. eapply Qle_lt_trans; eassumption. }
  revert Hup. generalize (Qfloor (v * inject_Z n)). subst n. intros f Hf. lia.
Qed.

Section ArrayFacts.
Context {A : Type}.
Implicit Types a : list A.

Lemma insert_head_Permutation a k x y :
  a !! k = Some y → y :: <[k := x]> a ≡ₚ x :: a.
Proof.
  revert k. induction a as [|h t IH]; intros [|k] Hk; simplify_eq/=.
  - apply Permutation_swap.
  - rewrite (Permutation_swap h y). rewrite (IH k Hk). apply Permutation_swap.
Qed.

Lemma swap_Permutation i j a : swap i j a ≡ₚ a.
Proof.
  unfold swap.
  destruct (a !! i) as [x|] eqn:Hi; [|done].
  destruct (a !! j) as [y|] eqn:Hj; [|done].
  revert i j Hi Hj. induction a as [|h t IH]; intros [|i] [|j] Hi Hj; simplify_eq/=.
  - done.
  - by apply insert_head_Permutation.
  - by apply insert_head_Permutation.
  - f_equiv. by apply IH.
Qed.

Lemma swap_length i j a : length (swap i j a) = length a.
Proof.
  unfold swap. destruct (a !! i), (a !! j); try done.
  by rewrite !length_insert.
Qed.

(** In range, [swap] is the exchange the destructuring assignment does. *)
Lemma swap_in_range i j a :
  i < length a → j < length a →
  ∃ x y, a !! i = Some x ∧ a !! j = Some y ∧ swap i j a = <[j := x]> (<[i := y]> a).
Proof.
  intros Hi Hj.
  destruct (lookup_lt_is_Some_2 a i Hi) as [x Hx].
  destruct (lookup_lt_is_Some_2 a j Hj) as [y Hy].
  exists x, y. unfold swap. by rewrite Hx, Hy.
Qed.

Variable Math_random : nat → UnitInterval.

Lemma shuffle_loop_Permutation i calls a :
  (shuffle_loop Math_random i calls a).1 ≡ₚ a.
Proof.
  revert calls a. induction i as [|i IH]; intros calls a; simpl; [done|].
  rewrite IH. apply swap_Permutation.
Qed.

Lemma shuffle_loop_calls i calls a :
  (shuffle_loop Math_random i calls a).2 = calls + i.
Proof.
  revert calls a. induction i as [|i IH]; intros calls a; simpl; [lia|].
  rewrite IH. lia.
Qed.

Lemma shuffleArray_Permutation a calls :
  (shuffleArray Math_random a calls).1 ≡ₚ a.
Proof. apply shuffle_loop_Permutation. Qed.

Lemma shuffleArray_length a calls :
  length (shuffleArray Math_random a calls).1 = length a.
Proof. by rewrite shuffleArray_Permutation. Qed.

(** Every swap of the loop is inside the array. *)
Lemma shuffle_swaps_in_range i calls a :
  i < length a →
  let j := random_index (Math_random calls) i in j < length a.
Proof. intros Hi j. pose proof (random_index_le (Math_random calls) i). lia. Qed.

(** The loop on the array object [newArr] does to its contents what
    [shuffle_loop] does, and touches no other object. *)
Lemma shuffle_loop_ref_spec i calls newArr (heap : list (list A)) a :
  heap !! newArr = Some a →
  shuffle_loop_ref Math_random i calls newArr heap
  = (<[newArr := (shuffle_loop Math_random i calls a).1]> heap,
     (shuffle_loop Math_random i calls a).2).
Proof.
  revert calls heap a. induction i as [|i IH]; intros calls heap a Ha; simpl.
  - by rewrite list_insert_id.
  - erewrite IH; last by rewrite list_lookup_alter_eq, Ha.
    f_equal. by rewrite !list_insert_alter, list_alter_alter_eq.
Qed.

(** C10.  [shuffleArray] allocates a new array whose contents are a
    permutation of the contents of the input (same length, same elements
    with the same multiplicities); the input array and every other array
    that existed before the call keep their contents; the result is a
    function of the input contents and of the random source alone. *)
Theorem shuffleArray_permutes_and_preserves_input
    (heap : list (list A)) (array calls : nat) (contents : list A) :
  heap !! array = Some contents →
  ∃ newArr heap' calls' result,
    shuffleArray_ref Math_random array calls heap = (newArr, heap', calls')
    ∧ newArr = length heap
    ∧ heap' !! newArr = Some result
    ∧ result ≡ₚ contents
    ∧ length result = length contents
    ∧ heap' !! array = Some contents
    ∧ (∀ r, r < length heap → heap' !! r = heap !! r)
    ∧ (result, calls') = shuffleArray Math_random contents calls.
Proof.
  intros Harr.
  pose proof (lookup_lt_Some _ _ _ Harr) as Hlt.
  assert (Hnew : (heap ++ [contents]) !! length heap = Some contents)
    by apply list_lookup_middle, eq_refl.
  unfold shuffleArray_ref, spread. rewrite Harr. cbv beta iota. cbn [from_option]. unfold id.
  rewrite Hnew. cbn [from_option]. unfold id.
  rewrite (shuffle_loop_ref_spec _ _ _ _ contents Hnew).
  eexists _, _, _, _. split; [reflexivity|].
  split; [reflexivity|].
  split.
  { apply list_lookup_insert_eq. rewrite length_app. simpl. lia. }
  split; [apply shuffle_loop_Permutation|].
  split; [by rewrite shuffle_loop_Permutation|].
  split.
  { rewrite list_lookup_insert_ne by lia. by apply lookup_app_l_Some. }
  split.
  { intros r Hr. rewrite list_lookup_insert_ne by lia. by apply lookup_app_l. }
  unfold shuffleArray. by destruct (shuffle_loop _ _ _ _).
Qed.
End ArrayFacts.

Lemma shuffleArray_permutes_and_preserves_input_witness :
  ∃ newArr heap' calls' result,
    shuffleArray_ref cycling 1 0 [["x"]; ["a"; "b"; "c"; "d"]] = (newArr, heap', calls')
    ∧ newArr = 2
    ∧ heap' !! newArr = Some result
    ∧ result ≡ₚ ["a"; "b"; "c"; "d"]
    ∧ length result = 4
    ∧ heap' !! 1 = Some ["a"; "b"; "c"; "d"]
    ∧ (∀ r, r < 2 → heap' !! r = [["x"]; ["a"; "b"; "c"; "d"]] !! r)
    ∧ (result, calls') = shuffleArray cycling ["a"; "b"; "c"; "d"] 0.
Proof.
  apply (shuffleArray_permutes_and_preserves_input cycling
           [["x"]; ["a"; "b"; "c"; "d"]] 1 0 ["a"; "b"; "c"; "d"]).
  reflexivity.
Defined.

Example shuffleArray_always_half :
  shuffleArray always_half ["a"; "b"; "c"] 0 = (["a"; "c"; "b"], 2).
Proof. vm_compute. reflexivity. Qed.

Example shuffleArray_cycling :
  shuffleArray cycling ["a"; "b"; "c"; "d"] 0 = (["c"; "b"; "a"; "d"], 3).
Proof. vm_compute. reflexivity. Qed.

(** ** Narrator *)

(** C8.  When the provider call comes back with an error object, no
    [Howl] is created, the narrator ref and the speaking flag keep their
    values (a flag that is false stays false), the loading flag is false
    afterwards, the message of the error object is shown to the user, and
    the render that follows changes nothing else. *)
Theorem provider_error_leaves_no_playback (message : string) (s : App) :
  let s' := handleNarrate_resume (ReplyError message) s in
  howls s' = howls s
  ∧ narratorRef s' = narratorRef s
  ∧ isSpeaking s' = isSpeaking s
  ∧ isLoadingTTS s' = false
  ∧ alerts s' = alerts s ++ ["Error: " +:+ message]
  ∧ render s s' = s'.
Proof.
  unfold handleNarrate_resume, render; simpl.
  repeat split. by rewrite bool_decide_eq_true_2.
Qed.

Example provider_error_after_request :
  let s := run ASSETS cycling [EditKey "key"; EditText "The gate opens."; ClickNarrate]
               (mount None) in
  let s' := step ASSETS cycling (Settled (ReplyError "API key not valid.")) s in
  isLoadingTTS s = true ∧ requests s = [("key", "The gate opens.")]
  ∧ isLoadingTTS s' = false ∧ isSpeaking s' = false ∧ howls s' = []
  ∧ alerts s' = ["Error: API key not valid."].
Proof. vm_compute. repeat split. Qed.

(** C9.  [handleNarrate] without an API key, or with an empty text, is
    rejected before the loading flag is set and before the provider is
    called: no request is made, no [Howl] is created, and the loading and
    speaking flags keep their values.  Without a key the user is told so;
    with a key and an empty text the state is left as it is. *)
Theorem narrate_rejects_missing_key_and_empty_text (s : App) :
  apiKey s = "" ∨ narratorText s = "" →
  let s' := handleNarrate s in
  requests s' = requests s
  ∧ howls s' = howls s
  ∧ narratorRef s' = narratorRef s
  ∧ isLoadingTTS s' = isLoadingTTS s
  ∧ isSpeaking s' = isSpeaking s
  ∧ alerts s' = alerts s ++
      (if bool_decide (apiKey s = "")
       then ["Please enter a Google Cloud API Key first."] else [])
  ∧ (if bool_decide (apiKey s = "") then True else s' = s).
Proof.
  intros Hrej. unfold handleNarrate.
  case_bool_decide as Hkey; simpl.
  - done.
  - destruct Hrej as [Hk|Ht]; [done|].
    rewrite bool_decide_eq_true_2 by done.
    by rewrite app_nil_r.
Qed.

Lemma narrate_rejects_missing_key_and_empty_text_witness :
  let s := step ASSETS cycling (EditKey "key") (mount None) in
  let s' := handleNarrate s in
  (apiKey s = "" ∨ narratorText s = "")
  ∧ requests s' = requests s
  ∧ howls s' = howls s
  ∧ narratorRef s' = narratorRef s
  ∧ isLoadingTTS s' = isLoadingTTS s
  ∧ isSpeaking s' = isSpeaking s
  ∧ alerts s' = alerts s ++
      (if bool_decide (apiKey s = "")
       then ["Please enter a Google Cloud API Key first."] else [])
  ∧ (if bool_decide (apiKey s = "") then True else s' = s).
Proof.
  split; [right; reflexivity|].
  apply (narrate_rejects_missing_key_and_empty_text
           (step ASSETS cycling (EditKey "key") (mount None))).
  right; reflexivity.
Defined.

Example narrate_without_key :
  alerts (handleNarrate (mount None)) = ["Please enter a Google Cloud API Key first."]
  ∧ requests (handleNarrate (mount None)) = [].
Proof. split; reflexivity. Qed.

(** A request is made exactly when both the key and the text are there. *)
Lemma narrate_requests (s : App) :
  apiKey s ≠ "" → narratorText s ≠ "" →
  requests (handleNarrate s) = requests s ++ [(apiKey s, narratorText s)]
  ∧ isLoadingTTS (handleNarrate s) = true.
Proof.
  intros Hk Ht. unfold handleNarrate.
  rewrite !bool_decide_eq_false_2 by done. done.
Qed.

(** ** The store of [Howl] objects *)

Lemma later_of_refl h : later_of h h.
Proof. by repeat split. Qed.

Lemma later_of_trans h1 h2 h3 : later_of h1 h2 → later_of h2 h3 → later_of h1 h3.
Proof. intros (?&?&?&?) (?&?&?&?). repeat split; auto. Qed.

Lemma later_of_fade from to len t h : later_of h (howl_fade from to len t h).
Proof. by repeat split. Qed.

Lemma later_of_off_end h : later_of h (howl_off_end h).
Proof. by repeat split. Qed.

Lemma later_of_stop h : later_of h (howl_stop h).
Proof. by repeat split. Qed.

Lemma later_of_finish h : later_of h (howl_finish h).
Proof. by repeat split. Qed.

Lemma later_of_unload h : later_of h (howl_unload h).
Proof. by repeat split. Qed.

Create HintDb howl.
#[local] Hint Resolve later_of_refl later_of_fade later_of_off_end later_of_stop
  later_of_finish later_of_unload : howl.

Lemma store_grows_refl hs : store_grows hs hs.
Proof. intros id h Hh. eauto with howl. Qed.

Lemma store_grows_trans hs1 hs2 hs3 :
  store_grows hs1 hs2 → store_grows hs2 hs3 → store_grows hs1 hs3.
Proof.
  intros H12 H23 id h Hh.
  destruct (H12 id h Hh) as (h2 & Hh2 & Hl2).
  destruct (H23 id h2 Hh2) as (h3 & Hh3 & Hl3).
  eauto using later_of_trans.
Qed.

Lemma store_grows_alter f b hs :
  (∀ h, later_of h (f h)) → store_grows hs (alter f b hs).
Proof.
  intros Hf id h Hh. rewrite list_lookup_alter. case_decide; subst.
  - rewrite Hh. simpl. eauto.
  - eauto with howl.
Qed.

Lemma store_grows_app hs new : store_grows hs (hs ++ new).
Proof. intros id h Hh. exists h. split; [by apply lookup_app_l_Some|auto with howl]. Qed.

Lemma store_grows_length hs hs' : store_grows hs hs' → length hs ≤ length hs'.
Proof.
  intros Hg. destruct (decide (length hs ≤ length hs')) as [|Hn]; [done|].
  destruct (lookup_lt_is_Some_2 hs (length hs') ltac:(lia)) as [h Hh].
  destruct (Hg _ _ Hh) as (h' & Hh' & _).
  apply lookup_lt_Some in Hh'. lia.
Qed.

(** A method call on the [Howl] that was just created. *)
Lemma alter_new_howl (f : Howl → Howl) (hs : list Howl) (h : Howl) :
  alter f (length hs) (hs ++ [h]) = hs ++ [f h].
Proof. rewrite alter_app_r_alt by lia. by rewrite Nat.sub_diag. Qed.

(** *** Timers *)

Lemma run_timers_grows t ts hs : store_grows hs (run_timers t ts hs).2.
Proof.
  revert hs. induction ts as [|[due old] ts IH]; intros hs; simpl.
  - apply store_grows_refl.
  - case_match.
    + eapply store_grows_trans; [|apply IH].
      apply store_grows_alter. intros h.
      eapply later_of_trans; [apply later_of_stop|apply later_of_unload].
    + specialize (IH hs). destruct (run_timers t ts hs). done.
Qed.

Lemma run_timers_length t ts hs : length (run_timers t ts hs).2 = length hs.
Proof.
  revert hs. induction ts as [|[due old] ts IH]; intros hs; simpl; [done|].
  case_match.
  - by rewrite IH, length_alter.
  - specialize (IH hs). destruct (run_timers t ts hs). done.
Qed.


(** ** What each function does to the state *)

Section Operations.
Variable assets : Assets.
Variable Math_random : nat → UnitInterval.

Lemma stopBgm_idle s : bgmRef s = None → stopBgm s = s.
Proof. intros Hb. unfold stopBgm. by rewrite Hb. Qed.

Lemma stopBgm_playing s b :
  bgmRef s = Some b →
  stopBgm s =
  set_bgmRef None
    (set_timers (timers s ++ [(now s + 1000, b)])
       (set_howls (alter (fading_out (now s)) b (howls s)) s)).
Proof.
  intros Hb. unfold stopBgm. rewrite Hb. simpl.
  rewrite list_alter_alter_eq. done.
Qed.

Lemma stopBgm_fields s :
  bgmRef (stopBgm s) = None
  ∧ currentBgmCategory (stopBgm s) = currentBgmCategory s
  ∧ queueRef (stopBgm s) = queueRef s
  ∧ queueIndexRef (stopBgm s) = queueIndexRef s
  ∧ isSpeaking (stopBgm s) = isSpeaking s
  ∧ now (stopBgm s) = now s
  ∧ random_calls (stopBgm s) = random_calls s.
Proof.
  destruct (bgmRef s) as [b|] eqn:Hb.
  - by rewrite (stopBgm_playing s b Hb).
  - by rewrite (stopBgm_idle s Hb).
Qed.

Lemma stopBgm_grows s : store_grows (howls s) (howls (stopBgm s)).
Proof.
  destruct (bgmRef s) as [b|] eqn:Hb.
  - rewrite (stopBgm_playing s b Hb). simpl.
    apply store_grows_alter. intros h. unfold fading_out.
    eapply later_of_trans; [apply later_of_off_end|apply later_of_fade].
  - rewrite (stopBgm_idle s Hb). apply store_grows_refl.
Qed.

Lemma playTrackInQueue_superseded rendered category s :
  superseded rendered category = true →
  playTrackInQueue rendered category s = s.
Proof. intros Hg. unfold playTrackInQueue. by rewrite Hg. Qed.

Lemma playTrackInQueue_plays rendered category s :
  superseded rendered category = false →
  playTrackInQueue rendered category s =
  set_bgmRef (Some (length (howls s)))
    (set_howls (howls s ++ [music_howl (queueRef s !! queueIndexRef s)
                                       rendered category (now s)]) s).
Proof.
  intros Hg. unfold playTrackInQueue. rewrite Hg. simpl.
  by rewrite !alter_new_howl.
Qed.


Lemma ducking_idle s : bgmRef s = None → ducking s = s.
Proof. intros Hb. unfold ducking. by rewrite Hb. Qed.

Lemma ducking_playing s b :
  bgmRef s = Some b →
  ducking s =
  set_howls
    (alter (λ h, howl_fade (current_volume (now s) h)
                           (if isSpeaking s then 1 # 5 else 1)%Q 500 (now s) h)
           b (howls s)) s.
Proof. intros Hb. unfold ducking. by rewrite Hb. Qed.

(** The effect touches nothing but the fade of the [Howl] in [bgmRef]. *)
Lemma ducking_howls s :
  ∃ f, (∀ h, later_of h (f h) ∧ onend (f h) = onend h ∧ playing (f h) = playing h
             ∧ unloaded (f h) = unloaded h)
       ∧ ∃ b, ducking s = set_howls (alter f b (howls s)) s.
Proof.
  destruct (bgmRef s) as [b|] eqn:Hb.
  - eexists. split; [|exists b; by apply ducking_playing].
    intros h. split; [apply later_of_fade|done].
  - exists id. split; [intros h; split; [apply later_of_refl|done]|].
    exists 0. rewrite ducking_idle by done.
    rewrite list_alter_id by done. by destruct s.
Qed.

Lemma render_cases prev s : render prev s = s ∨ render prev s = ducking s.
Proof. unfold render. case_bool_decide; auto. Qed.

Lemma render_same prev s :
  isSpeaking prev = isSpeaking s →
  currentBgmCategory prev = currentBgmCategory s →
  render prev s = s.
Proof. intros H1 H2. unfold render. by rewrite bool_decide_eq_true_2. Qed.

Lemma render_howls prev s :
  ∃ f, (∀ h, later_of h (f h) ∧ onend (f h) = onend h ∧ playing (f h) = playing h
             ∧ unloaded (f h) = unloaded h)
       ∧ ∃ b, render prev s = set_howls (alter f b (howls s)) s.
Proof.
  destruct (render_cases prev s) as [-> | ->]; [|apply ducking_howls].
  exists id. split; [intros h; split; [apply later_of_refl|done]|].
  exists 0. rewrite list_alter_id by done. by destruct s.
Qed.

Lemma elapse_fields ms s :
  bgmRef (elapse ms s) = bgmRef s
  ∧ currentBgmCategory (elapse ms s) = currentBgmCategory s
  ∧ queueRef (elapse ms s) = queueRef s
  ∧ queueIndexRef (elapse ms s) = queueIndexRef s
  ∧ isSpeaking (elapse ms s) = isSpeaking s
  ∧ now (elapse ms s) = now s + ms
  ∧ howls (elapse ms s) = (run_timers (now s + ms) (timers s) (howls s)).2
  ∧ timers (elapse ms s) = (run_timers (now s + ms) (timers s) (howls s)).1.
Proof.
  unfold elapse. simpl.
  by destruct (run_timers (now s + ms) (timers s) (howls s)).
Qed.
End Operations.

(** ** Ducking *)

(** One transition of the speaking flag, with music playing. *)
Lemma speaking_transition (v : bool) (s : App) (b : nat) (h : Howl) :
  isSpeaking s = negb v → bgmRef s = Some b → howls s !! b = Some h →
  let s' := render s (setIsSpeaking v s) in
  howl_at b s' =
    Some (howl_fade (current_volume (now s) h) (if v then 1 # 5 else 1)%Q 500 (now s) h)
  ∧ isSpeaking s' = v ∧ bgmRef s' = Some b ∧ now s' = now s
  ∧ (∀ id, id ≠ b → howl_at id s' = howl_at id s).
Proof.
  intros Hs Hb Hh. unfold render. simpl.
  rewrite bool_decide_eq_false_2 by (rewrite Hs; destruct v; intros [? _]; done).
  rewrite (ducking_playing _ b) by done. unfold howl_at. simpl.
  rewrite list_lookup_alter_eq, Hh. simpl.
  split; [done|]. split; [done|]. split; [done|]. split; [done|].
  intros id Hid. by rewrite list_lookup_alter_ne.
Qed.

(** One transition of the speaking flag, without music. *)
Lemma speaking_transition_idle (v : bool) (s : App) :
  bgmRef s = None → render s (setIsSpeaking v s) = setIsSpeaking v s.
Proof.
  intros Hb. destruct (render_cases s (setIsSpeaking v s)) as [-> | ->]; [done|].
  by apply ducking_idle.
Qed.

(** C6.  When the speaking flag goes from false to true the active
    music [Howl] is faded from its current volume to 0.2 over 500 ms;
    when it goes back to false (here [ms] milliseconds later) it is
    faded to 1.0 over 500 ms, so the round trip leaves the target volume
    at exactly 1.0.  Without an active music [Howl] the transitions
    change the flag and nothing else. *)
Theorem ducking_round_trip (s : App) (ms : nat) :
  isSpeaking s = false →
  let s1 := render s (setIsSpeaking true s) in
  let s1' := elapse ms s1 in
  let s2 := render s1' (setIsSpeaking false s1') in
  match bgmRef s with
  | Some b =>
      ∀ h, howls s !! b = Some h →
        howl_at b s1 = Some (howl_fade (current_volume (now s) h) (1 # 5) 500 (now s) h)
        ∧ target_volume <$> howl_at b s1 = Some (1 # 5)%Q
        ∧ (∃ h', howl_at b s1' = Some h'
                 ∧ howl_at b s2 =
                     Some (howl_fade (current_volume (now s + ms) h') 1 500 (now s + ms) h'))
        ∧ target_volume <$> howl_at b s2 = Some 1%Q
  | None =>
      s1 = setIsSpeaking true s ∧ s2 = setIsSpeaking false s1'
  end.
Proof.
  intros Hs s1 s1' s2.
  destruct (bgmRef s) as [b|] eqn:Hb.
  - intros h Hh.
    destruct (speaking_transition true s b h Hs Hb Hh) as (H1 & Hsp1 & Hb1 & Hnow1 & _).
    fold s1 in H1, Hsp1, Hb1, Hnow1.
    destruct (elapse_fields ms s1) as (Hb' & _ & _ & _ & Hsp' & Hnow' & Hhs' & _).
    fold s1' in Hb', Hsp', Hnow', Hhs'.
    destruct (run_timers_grows (now s1 + ms) (timers s1) (howls s1) b _ H1)
      as (h' & Hh' & _).
    rewrite <- Hhs' in Hh'.
    destruct (speaking_transition false s1' b h') as (H2 & _).
    { by rewrite Hsp', Hsp1. }
    { by rewrite Hb', Hb1. }
    { done. }
    fold s2 in H2. rewrite Hnow', Hnow1 in H2.
    split; [done|]. split; [by rewrite H1|].
    split; [by exists h'|]. by rewrite H2.
  - assert (H1 : s1 = setIsSpeaking true s) by by apply speaking_transition_idle.
    split; [done|]. apply speaking_transition_idle.
    subst s1'. destruct (elapse_fields ms s1) as (-> & _). by rewrite H1.
Qed.
Lemma ducking_round_trip_witness :
  let s := battle_playing in
  let s1 := render s (setIsSpeaking true s) in
  let s1' := elapse 3000 s1 in
  let s2 := render s1' (setIsSpeaking false s1') in
  isSpeaking s = false
  ∧ ∀ h, howls s !! 0 = Some h →
      howl_at 0 s1 = Some (howl_fade (current_volume (now s) h) (1 # 5) 500 (now s) h)
      ∧ target_volume <$> howl_at 0 s1 = Some (1 # 5)%Q
      ∧ (∃ h', howl_at 0 s1' = Some h'
               ∧ howl_at 0 s2 =
                   Some (howl_fade (current_volume (now s + 3000) h') 1 500
                                   (now s + 3000) h'))
      ∧ target_volume <$> howl_at 0 s2 = Some 1%Q.
Proof.
  split; [reflexivity|].
  apply (ducking_round_trip battle_playing 3000). reflexivity.
Defined.

Example ducking_during_narration :
  target_volume <$> howl_at 0 narrating_over_battle = Some (1 # 5)%Q
  ∧ isSpeaking narrating_over_battle = true
  ∧ target_volume <$> howl_at 0 (step ASSETS cycling (HowlEnd 1) narrating_over_battle)
    = Some 1%Q.
Proof. vm_compute. repeat split. Qed.

(** ** Starting a playlist *)

Section Playlist.
Variable assets : Assets.
Variable Math_random : nat → UnitInterval.

End Playlist.



(** C5 at the input where it fails: "battle" is playing and the user
    starts "thrill".  The queue is shuffled, the cursor is reset and the
    category is recorded, but the guard of [playTrackInQueue] compares
    "thrill" with the category of the render the click handler belongs to
    ("battle") and returns: no [Howl] is created and nothing plays. *)
Theorem startPlaylist_switch_category_plays_nothing :
  let s := battle_playing in
  let s' := step ASSETS cycling (ClickPlaylist "thrill") s in
  bgm ASSETS !! "thrill" = Some ["/assets/thrill_theme.mp3"]
  ∧ currentBgmCategory s = Some "battle"
  ∧ currentBgmCategory s' = Some "thrill"
  ∧ queueRef s' = ["/assets/thrill_theme.mp3"]
  ∧ queueIndexRef s' = 0
  ∧ bgmRef s' = None
  ∧ length (howls s') = length (howls s)
  ∧ (∀ id h, howl_at id s' = Some h → src h ≠ TrackUrl (Some "/assets/thrill_theme.mp3")).
Proof.
  cbv zeta. repeat (split; [reflexivity|]).
  intros id h. vm_compute.
  destruct id as [|id]; [|destruct id; discriminate].
  intros [= <-]. discriminate.
Qed.

(** C3 at the input where it fails: the narrator speaks, the music is
    ducked to 0.2, and the current track ends.  The next [Howl] is faded
    in from 0 to 1.0 over 2000 ms like any other, the speaking flag is still
    true, and the effect does not run because neither of its dependencies
    changed. *)
Theorem track_advance_ignores_ducking :
  let s := narrating_over_battle in
  let s' := step ASSETS cycling (HowlEnd 0) s in
  isSpeaking s = true
  ∧ bgmRef s = Some 0
  ∧ target_volume <$> howl_at 0 s = Some (1 # 5)%Q
  ∧ isSpeaking s' = true
  ∧ bgmRef s' = Some 2
  ∧ howl_at 2 s' = Some (music_howl (Some "/assets/battle2.mp3") None "battle" 700)
  ∧ target_volume <$> howl_at 2 s' = Some 1%Q.
Proof. vm_compute. repeat split. Qed.

(** ** The queue *)

Lemma succ_mod_wrap (m k : nat) :
  0 < k → S m mod k = if k <=? m mod k + 1 then 0 else m mod k + 1.
Proof.
  intros Hk.
  pose proof (Nat.div_mod_eq m k) as Hm.
  pose proof (Nat.mod_upper_bound m k ltac:(lia)) as Hlt.
  destruct (k <=? m mod k + 1) eqn:Hw.
  - apply Nat.leb_le in Hw. symmetry.
    apply (Nat.mod_unique (S m) k (S (m / k)) 0); lia.
  - apply Nat.leb_gt in Hw. symmetry.
    apply (Nat.mod_unique (S m) k (m / k) (m mod k + 1)); lia.
Qed.

Section Queue.
Variable assets : Assets.
Variable Math_random : nat → UnitInterval.

(** The listener of a music [Howl] leaves the queue alone, moves the
    cursor by one, wrapping to 0 at the length of the queue, and goes on
    to [playTrackInQueue]. *)
Lemma onend_NextTrack_cursor rendered category s :
  let s' := onend_NextTrack rendered category s in
  queueRef s' = queueRef s
  ∧ random_calls s' = random_calls s
  ∧ queueIndexRef s' =
      (if length (queueRef s) <=? queueIndexRef s + 1 then 0 else queueIndexRef s + 1).
Proof.
  unfold onend_NextTrack, playTrackInQueue. simpl.
  destruct (superseded rendered category);
    destruct (length (queueRef s) <=? queueIndexRef s + 1); done.
Qed.

(** The [end] event of the music [Howl] in [bgmRef], while its listener
    is in place. *)
Lemma complete_current_advances s b h rendered category :
  bgmRef s = Some b → howls s !! b = Some h →
  playing h = true → onend h = Some (NextTrack rendered category) →
  superseded rendered category = false →
  let cursor := if length (queueRef s) <=? queueIndexRef s + 1
                then 0 else queueIndexRef s + 1 in
  complete_current assets Math_random s =
  set_bgmRef (Some (length (howls s)))
    (set_howls (alter howl_finish b (howls s)
                ++ [music_howl (queueRef s !! cursor) rendered category (now s)])
       (set_queueIndexRef cursor s)).
Proof.
  intros Hb Hh Hp Hl Hg cursor.
  unfold complete_current, step, handle, emit_end. rewrite Hb, Hh, Hp, Hl.
  unfold onend_NextTrack. rewrite render_same.
  - rewrite playTrackInQueue_plays by done. simpl. subst cursor.
    destruct (length (queueRef s) <=? queueIndexRef s + 1);
      simpl; by rewrite length_alter.
  - rewrite playTrackInQueue_plays by done. simpl.
    by destruct (length (queueRef s) <=? queueIndexRef s + 1).
  - rewrite playTrackInQueue_plays by done. simpl.
    by destruct (length (queueRef s) <=? queueIndexRef s + 1).
Qed.

(** The [Howl] of the next track is faded in to full volume, whatever
    the speaking flag says, and the flag is not consulted afterwards. *)
Lemma complete_current_fades_to_full s b h rendered category :
  bgmRef s = Some b → howls s !! b = Some h →
  playing h = true → onend h = Some (NextTrack rendered category) →
  superseded rendered category = false →
  let s' := complete_current assets Math_random s in
  ∃ h', bgmRef s' = Some (length (howls s))
        ∧ howl_at (length (howls s)) s' = Some h'
        ∧ fading h' = Some (mkFade 0 1 2000 (now s))
        ∧ target_volume h' = 1%Q
        ∧ isSpeaking s' = isSpeaking s.
Proof.
  intros Hb Hh Hp Hl Hg s'. subst s'.
  rewrite (complete_current_advances s b h rendered category) by done.
  eexists. split; [done|]. unfold howl_at. simpl.
  rewrite <- (length_alter howl_finish (howls s) b).
  rewrite list_lookup_middle by done. done.
Qed.

(** [startPlaylist] for a category with tracks, called from a render
    that is idle or already in that category. *)
Lemma startPlaylist_starts category tracks s :
  bgm assets !! category = Some tracks → tracks ≠ [] →
  superseded (currentBgmCategory s) category = false →
  let q := shuffleArray Math_random tracks (random_calls s) in
  startPlaylist assets Math_random category s =
  set_bgmRef (Some (length (howls s)))
    (set_howls (howls (stopBgm s)
                ++ [music_howl (q.1 !! 0) (currentBgmCategory s) category (now s)])
       (set_queueIndexRef 0
          (set_queueRef q (setCurrentBgmCategory (Some category) (stopBgm s))))).
Proof.
  intros Ht Hne Hg q. unfold startPlaylist. rewrite Ht.
  destruct tracks as [|t0 tracks]; [done|].
  rewrite playTrackInQueue_plays by done.
  destruct (stopBgm_fields s) as (_ & _ & _ & _ & _ & Hnow & Hcalls).
  simpl. rewrite Hnow, Hcalls.
  pose proof (store_grows_length _ _ (stopBgm_grows s)) as Hlen.
  assert (Hlen' : length (howls (stopBgm s)) = length (howls s)).
  { destruct (bgmRef s) as [b|] eqn:Hb.
    - rewrite (stopBgm_playing s b Hb). simpl. by rewrite length_alter.
    - by rewrite (stopBgm_idle s Hb). }
  by rewrite Hlen'.
Qed.

(** [startPlaylist] for a category with tracks, called from a render
    whose category is another one. *)
Lemma startPlaylist_superseded category tracks s :
  bgm assets !! category = Some tracks → tracks ≠ [] →
  superseded (currentBgmCategory s) category = true →
  let q := shuffleArray Math_random tracks (random_calls s) in
  startPlaylist assets Math_random category s =
  set_queueIndexRef 0
    (set_queueRef q (setCurrentBgmCategory (Some category) (stopBgm s))).
Proof.
  intros Ht Hne Hg q. unfold startPlaylist. rewrite Ht.
  destruct tracks as [|t0 tracks]; [done|].
  rewrite playTrackInQueue_superseded by done.
  destruct (stopBgm_fields s) as (_ & _ & _ & _ & _ & _ & Hcalls).
  subst q. simpl. by rewrite Hcalls.
Qed.

(** The state in which the playlist loops: the [Howl] in [bgmRef] plays
    and carries a listener that passes its guard. *)
Lemma looping_step q n0 rendered category m s :
  q ≠ [] → superseded rendered category = false →
  (queueRef s = q ∧ queueIndexRef s = m mod length q
   ∧ length (howls s) = n0 + m
   ∧ ∃ b h, bgmRef s = Some b ∧ howls s !! b = Some h ∧ playing h = true
            ∧ onend h = Some (NextTrack rendered category)) →
  let s' := complete_current assets Math_random s in
  queueRef s' = q ∧ queueIndexRef s' = S m mod length q
  ∧ length (howls s') = n0 + S m
  ∧ ∃ b h, bgmRef s' = Some b ∧ howls s' !! b = Some h ∧ playing h = true
           ∧ onend h = Some (NextTrack rendered category).
Proof.
  intros Hq Hg (Hqs & Hi & Hn & b & h & Hb & Hh & Hp & Hl) s'. subst s'.
  rewrite (complete_current_advances s b h rendered category) by done. simpl.
  assert (0 < length q) by (destruct q; [done|simpl; lia]).
  rewrite succ_mod_wrap by done. rewrite Hqs, Hi.
  split; [done|]. split; [done|].
  split; [rewrite length_app, length_alter; simpl; lia|].
  exists (length (howls s)).
  eexists. split; [done|].
  split.
  { rewrite <- (length_alter howl_finish (howls s) b).
    by apply list_lookup_middle. }
  split; reflexivity.
Qed.

(** C4.  After [startPlaylist] has put a category with [k] tracks into
    play, every [end] event of the playing track leaves the queue as the
    shuffle made it, draws no random number, creates one [Howl] and moves
    the cursor by one modulo [k]; after [k] events the cursor is back at 0
    over the same queue. *)
Theorem loop_keeps_shuffled_order (category : string) (tracks : list string) (s : App) :
  bgm assets !! category = Some tracks → tracks ≠ [] →
  superseded (currentBgmCategory s) category = false →
  let s0 := step assets Math_random (ClickPlaylist category) s in
  let k := length tracks in
  queueRef s0 ≡ₚ tracks
  ∧ queueIndexRef s0 = 0
  ∧ (∀ m, let sm := Nat.iter m (complete_current assets Math_random) s0 in
          queueRef sm = queueRef s0
          ∧ queueIndexRef sm = m mod k
          ∧ random_calls sm = random_calls s0
          ∧ length (howls sm) = length (howls s0) + m)
  ∧ queueRef (Nat.iter k (complete_current assets Math_random) s0) = queueRef s0
  ∧ queueIndexRef (Nat.iter k (complete_current assets Math_random) s0) = 0.
Proof.
  intros Ht Hne Hg s0 k.
  set (q := shuffleArray Math_random tracks (random_calls s)).
  set (s1 := startPlaylist assets Math_random category s).
  assert (Hs0 : ∃ f b, s0 = set_howls (alter f b (howls s1)) s1
                       ∧ ∀ h, onend (f h) = onend h ∧ playing (f h) = playing h).
  { subst s0. unfold step.
    change (handle assets Math_random (ClickPlaylist category) s) with s1.
    destruct (render_howls s s1) as (f & Hf & b & ->).
    exists f, b. split; [done|]. intros h. by destruct (Hf h) as (_ & ? & ? & _). }
  destruct Hs0 as (f & b0 & Hs0 & Hf). subst s1.
  rewrite (startPlaylist_starts category tracks s Ht Hne Hg) in Hs0. simpl in Hs0.
  fold q in Hs0.
  assert (Hq0 : queueRef s0 = q.1) by by rewrite Hs0.
  assert (Hi0 : queueIndexRef s0 = 0) by by rewrite Hs0.
  assert (Hperm : q.1 ≡ₚ tracks) by apply shuffleArray_Permutation.
  assert (Hqne : q.1 ≠ []).
  { intros Hnil. rewrite Hnil in Hperm. apply Permutation_nil_l in Hperm. done. }
  assert (Hk : length q.1 = k) by by rewrite Hperm.
  assert (Hloop : ∀ m, let sm := Nat.iter m (complete_current assets Math_random) s0 in
            queueRef sm = q.1 ∧ queueIndexRef sm = m mod length q.1
            ∧ length (howls sm) = length (howls s0) + m
            ∧ ∃ b h, bgmRef sm = Some b ∧ howls sm !! b = Some h ∧ playing h = true
                     ∧ onend h = Some (NextTrack (currentBgmCategory s) category)).
  { induction m as [|m IH].
    - simpl. split; [done|]. split; [by rewrite Nat.Div0.mod_0_l|].
      split; [lia|].
      rewrite Hs0. simpl.
      exists (length (howls s)),
        (if decide (b0 = length (howls s))
         then f (music_howl (q.1 !! 0) (currentBgmCategory s) category (now s))
         else music_howl (q.1 !! 0) (currentBgmCategory s) category (now s)).
      split; [done|].
      rewrite list_lookup_alter.
      assert (Hlen : length (howls (stopBgm s)) = length (howls s)).
      { destruct (bgmRef s) as [b|] eqn:Hb.
        - rewrite (stopBgm_playing s b Hb). simpl. by rewrite length_alter.
        - by rewrite (stopBgm_idle s Hb). }
      rewrite <- Hlen.
      case_decide as Hb0; [rewrite Hb0|]; rewrite list_lookup_middle by done;
        simpl; [|done].
      split; [done|].
      destruct (Hf (music_howl (q.1 !! 0) (currentBgmCategory s) category
                               (now s))) as [-> ->]. done.
    - simpl. apply (looping_step q.1 (length (howls s0))); done. }
  assert (Hcalls : ∀ m, random_calls (Nat.iter m (complete_current assets Math_random) s0)
                        = random_calls s0).
  { induction m as [|m IH]; [done|]. simpl.
    destruct (Hloop m) as (_ & _ & _ & b & h & Hb & Hh & Hp & Hl).
    rewrite (complete_current_advances _ b h _ _ Hb Hh Hp Hl Hg). simpl. done. }
  split; [by rewrite Hq0|]. split; [done|].
  split.
  { intros m sm. destruct (Hloop m) as (Hq & Hi & Hn & _). subst sm.
    rewrite Hq0, <- Hk. auto. }
  destruct (Hloop k) as (Hq & Hi & _).
  split; [by rewrite Hq0|].
  rewrite Hi, Hk. apply Nat.Div0.mod_same.
Qed.
End Queue.

Lemma loop_keeps_shuffled_order_witness :
  let s0 := step ASSETS cycling (ClickPlaylist "serene") (mount None) in
  let complete := complete_current ASSETS cycling in
  (bgm ASSETS !! "serene" = Some ["/assets/rain.mp3"; "/assets/wind.mp3"]
   ∧ ["/assets/rain.mp3"; "/assets/wind.mp3"] ≠ []
   ∧ superseded (currentBgmCategory (mount None)) "serene" = false)
  ∧ queueRef s0 ≡ₚ ["/assets/rain.mp3"; "/assets/wind.mp3"]
  ∧ queueIndexRef s0 = 0
  ∧ (∀ m, let sm := Nat.iter m complete s0 in
          queueRef sm = queueRef s0
          ∧ queueIndexRef sm = m mod 2
          ∧ random_calls sm = random_calls s0
          ∧ length (howls sm) = length (howls s0) + m)
  ∧ queueRef (Nat.iter 2 complete s0) = queueRef s0
  ∧ queueIndexRef (Nat.iter 2 complete s0) = 0.
Proof.
  split; [split; [reflexivity|split; [discriminate|reflexivity]]|].
  apply (loop_keeps_shuffled_order ASSETS cycling "serene"
           ["/assets/rain.mp3"; "/assets/wind.mp3"] (mount None));
    [reflexivity|discriminate|reflexivity].
Defined.

Example battle_loops_twice :
  let s2 := Nat.iter 2 (complete_current ASSETS cycling) battle_playing in
  queueRef battle_playing = ["/assets/battle1.mp3"; "/assets/battle2.mp3"]
  ∧ queueRef s2 = ["/assets/battle1.mp3"; "/assets/battle2.mp3"]
  ∧ queueIndexRef s2 = 0
  ∧ src <$> howls s2 =
      [TrackUrl (Some "/assets/battle1.mp3"); TrackUrl (Some "/assets/battle2.mp3");
       TrackUrl (Some "/assets/battle1.mp3")].
Proof. vm_compute. repeat split. Qed.

(** ** The life of a [Howl] across events *)

Section Lifetimes.
Variable assets : Assets.
Variable Math_random : nat → UnitInterval.

Lemma playSfx_grows type s : store_grows (howls s) (howls (playSfx assets type s)).
Proof.
  unfold playSfx. destruct (truthy _); [|apply store_grows_refl].
  simpl. rewrite alter_new_howl. apply store_grows_app.
Qed.

Lemma playAudioFromBase64_howls byteArray s :
  ∃ hs, store_grows (howls s) hs ∧ length hs = length (howls s)
        ∧ howls (playAudioFromBase64 byteArray s)
          = hs ++ [mkHowl (BlobUrl byteArray) false 1 (Some SpeakingOff) true true None false]
        ∧ bgmRef (playAudioFromBase64 byteArray s) = bgmRef s
        ∧ currentBgmCategory (playAudioFromBase64 byteArray s) = currentBgmCategory s
        ∧ timers (playAudioFromBase64 byteArray s) = timers s
        ∧ now (playAudioFromBase64 byteArray s) = now s.
Proof.
  unfold playAudioFromBase64. destruct (narratorRef s) as [n|]; simpl.
  - exists (alter howl_unload n (howls s)).
    split; [apply store_grows_alter, later_of_unload|].
    split; [apply length_alter|]. by rewrite alter_new_howl.
  - exists (howls s). split; [apply store_grows_refl|]. by rewrite alter_new_howl.
Qed.



Lemma render_grows prev s : store_grows (howls s) (howls (render prev s)).
Proof.
  destruct (render_howls prev s) as (f & Hf & b & ->). simpl.
  apply store_grows_alter. intros h. apply Hf.
Qed.





End Lifetimes.

(** ** Stopping *)


Section Stopping.
Variable assets : Assets.
Variable Math_random : nat → UnitInterval.







End Stopping.


(** ** Completions that arrive late *)

Lemma sequencer_inv_ext s s' :
  howls s' = howls s → bgmRef s' = bgmRef s →
  currentBgmCategory s' = currentBgmCategory s →
  sequencer_inv s → sequencer_inv s'.
Proof.
  intros Hh Hb Hc [Hok Hlt]. split.
  - intros id h Hid rendered category Hl. rewrite Hh in Hid.
    rewrite Hb, Hc. by apply (Hok id h Hid).
  - intros b. rewrite Hb, Hh. apply Hlt.
Qed.

Lemma quiet_ext s s' :
  howls s' = howls s → bgmRef s' = bgmRef s → quiet s → quiet s'.
Proof.
  intros Hh Hb [Hq Hlt]. split.
  - intros id h rendered category. rewrite Hh. apply Hq.
  - intros b. rewrite Hb, Hh. apply Hlt.
Qed.

Lemma quiet_sequencer_inv s : quiet s → sequencer_inv s.
Proof.
  intros [Hq Hlt]. split; [|done].
  intros id h Hid rendered category Hl.
  destruct (Hq id h rendered category Hid Hl) as [Hg Hp].
  split; [done|]. rewrite Hp. done.
Qed.

(** The invariant survives whatever happens to the [Howl]s that exist, as
    long as the new ones carry no music listener. *)
Lemma sequencer_inv_grows s s' :
  sequencer_inv s →
  store_grows (howls s) (howls s') →
  (∀ id h rendered category,
      length (howls s) ≤ id → howls s' !! id = Some h →
      onend h ≠ Some (NextTrack rendered category)) →
  bgmRef s' = bgmRef s → currentBgmCategory s' = currentBgmCategory s →
  sequencer_inv s'.
Proof.
  intros [Hok Hlt] Hg Hnew Hb Hc. split.
  - intros id h' Hid' rendered category Hl.
    destruct (decide (id < length (howls s))) as [Hin|Hout].
    + destruct (lookup_lt_is_Some_2 _ _ Hin) as [h Hid].
      destruct (Hg id h Hid) as (h'' & Hid'' & Hend & Hplay & _).
      assert (h'' = h') by congruence. subst h''.
      destruct (Hok id h Hid rendered category (Hend _ Hl)) as [Hsup Hcur].
      split; [done|]. intros Hp. rewrite Hb, Hc. auto.
    + by destruct (Hnew id h' rendered category ltac:(lia) Hid').
  - intros b Hbs. rewrite Hb in Hbs.
    pose proof (Hlt b Hbs). pose proof (store_grows_length _ _ Hg). lia.
Qed.

Section Guard.
Variable assets : Assets.
Variable Math_random : nat → UnitInterval.

Lemma stopBgm_quiet s : sequencer_inv s → quiet (stopBgm s).
Proof.
  intros [Hok Hlt].
  destruct (stopBgm_fields s) as (Hnone & _).
  split; [|by rewrite Hnone].
  intros id h' rendered category Hid' Hl.
  destruct (bgmRef s) as [b|] eqn:Hb.
  - rewrite (stopBgm_playing s b Hb) in Hid'. simpl in Hid'.
    rewrite list_lookup_alter in Hid'. case_decide as Hidb.
    + destruct (howls s !! b); simplify_eq/=.
    + destruct (Hok id h' Hid' rendered category Hl) as [Hsup Hcur].
      split; [done|]. destruct (playing h'); [|done].
      destruct (Hcur eq_refl) as [? _]. congruence.
  - rewrite (stopBgm_idle s Hb) in Hid'.
    destruct (Hok id h' Hid' rendered category Hl) as [Hsup Hcur].
    split; [done|]. destruct (playing h'); [|done].
    destruct (Hcur eq_refl) as [? _]. congruence.
Qed.

Lemma playTrackInQueue_inv rendered category s :
  quiet s → currentBgmCategory s = Some category →
  sequencer_inv (playTrackInQueue rendered category s).
Proof.
  intros [Hq Hlt] Hcur.
  destruct (superseded rendered category) eqn:Hg.
  - rewrite playTrackInQueue_superseded by done. by apply quiet_sequencer_inv.
  - rewrite playTrackInQueue_plays by done. split; simpl.
    + intros id h Hid r c Hl.
      apply lookup_app_Some in Hid as [Hid|[Hge Hid]].
      * destruct (Hq id h r c Hid Hl) as [Hsup Hp]. split; [done|].
        rewrite Hp. done.
      * apply list_lookup_singleton_Some in Hid as [Hz <-].
        simpl in Hl. injection Hl as <- <-.
        split; [done|]. intros _. simpl. split; [f_equal; lia|done].
    + intros b [= <-]. rewrite length_app. simpl. lia.
Qed.

Lemma emit_end_inv id s : sequencer_inv s → sequencer_inv (emit_end id s).
Proof.
  intros Hinv. unfold emit_end.
  destruct (howls s !! id) as [h|] eqn:Hid; [|done].
  destruct (playing h) eqn:Hp; [|done].
  assert (Hfin : sequencer_inv (on_howl howl_finish id s)).
  { apply (sequencer_inv_grows s); [done| | |done|done].
    - apply store_grows_alter, later_of_finish.
    - intros id' h' r c Hge Hid'. simpl in Hid'.
      apply lookup_lt_Some in Hid'. rewrite length_alter in Hid'. lia. }
  destruct (onend h) as [[rendered category|]|] eqn:Hl; [|by apply (sequencer_inv_ext _ _ eq_refl eq_refl eq_refl Hfin)|done].
  destruct Hinv as [Hok Hlt].
  destruct (Hok id h Hid rendered category Hl) as [Hsup Hcur].
  destruct (Hcur Hp) as [Hb Hc].
  unfold onend_NextTrack. apply playTrackInQueue_inv.
  - assert (Hq : quiet (on_howl howl_finish id s)).
    { split.
      - intros id' h' r c Hid' Hl'. simpl in Hid'.
        rewrite list_lookup_alter in Hid'. case_decide as Hidb.
        + subst id'. rewrite Hid in Hid'. simpl in Hid'. injection Hid' as <-.
          simpl in Hl'. destruct (Hok id h Hid r c Hl') as [? _]. done.
        + destruct (Hok id' h' Hid' r c Hl') as [Hsup' Hcur'].
          split; [done|]. destruct (playing h'); [|done].
          destruct (Hcur' eq_refl) as [? _]. congruence.
      - intros b. simpl. rewrite length_alter. apply Hlt. }
    destruct (_ <=? _); by apply (quiet_ext (on_howl howl_finish id s)).
  - simpl. by destruct (_ <=? _).
Qed.

Lemma handle_inv e s : sequencer_inv s → sequencer_inv (handle assets Math_random e s).
Proof.
  intros Hinv.
  destruct e as [category| |type| |val|val|r|id|id|ms]; cbn [handle].
  - unfold startPlaylist. pose proof (stopBgm_quiet s Hinv) as Hq.
    destruct (bgm assets !! category) as [[|t0 tracks]|];
      [by apply quiet_sequencer_inv| |by apply quiet_sequencer_inv].
    apply playTrackInQueue_inv; [|done].
    by apply (quiet_ext (stopBgm s)).
  - unfold handleStopClick.
    apply quiet_sequencer_inv, (quiet_ext (stopBgm s)); [done|done|].
    by apply stopBgm_quiet.
  - apply (sequencer_inv_grows s); [done|apply playSfx_grows| | |].
    + unfold playSfx. destruct (truthy _); simpl.
      * rewrite alter_new_howl. intros id h r c Hge Hid.
        apply lookup_app_Some in Hid as [Hid|[_ Hid]].
        -- apply lookup_lt_Some in Hid. lia.
        -- apply list_lookup_singleton_Some in Hid as [_ <-]. done.
      * intros id h r c Hge Hid. apply lookup_lt_Some in Hid. lia.
    + unfold playSfx. by destruct (truthy _).
    + unfold playSfx. by destruct (truthy _).
  - destruct (_ || _); [done|].
    apply (sequencer_inv_ext s); [| | |done];
      unfold handleNarrate; by repeat case_bool_decide.
  - by apply (sequencer_inv_ext s).
  - by apply (sequencer_inv_ext s).
  - destruct (isLoadingTTS s); [|done]. unfold handleNarrate_resume.
    destruct r as [message|byteArray|message];
      [by apply (sequencer_inv_ext s)| |by apply (sequencer_inv_ext s)].
    destruct (playAudioFromBase64_howls byteArray s)
      as (hs & Hg & Hlen & Hhs & Hb & Hc & _).
    apply (sequencer_inv_ext (playAudioFromBase64 byteArray s)); [done|done|done|].
    apply (sequencer_inv_grows s); [done| | |done|done].
    + rewrite Hhs. eapply store_grows_trans; [done|apply store_grows_app].
    + rewrite Hhs. intros id h r c Hge Hid.
      apply lookup_app_Some in Hid as [Hid|[_ Hid]].
      * apply lookup_lt_Some in Hid. lia.
      * apply list_lookup_singleton_Some in Hid as [_ <-]. done.
  - by apply emit_end_inv.
  - apply (sequencer_inv_ext s); [| | |done];
      unfold emit_play; destruct (howls s !! id); try done; by destruct (_ && _).
  - destruct (elapse_fields ms s) as (Hb & Hc & _ & _ & _ & _ & Hhs & _).
    apply (sequencer_inv_grows s); [done| | |done|done].
    + rewrite Hhs. apply run_timers_grows.
    + rewrite Hhs. intros id h r c Hge Hid.
      apply lookup_lt_Some in Hid. rewrite run_timers_length in Hid. lia.
Qed.

Lemma render_inv prev s : sequencer_inv s → sequencer_inv (render prev s).
Proof.
  intros Hinv. destruct (render_howls prev s) as (f & Hf & b & Heq).
  apply (sequencer_inv_grows s); [done|apply render_grows| | |]; rewrite Heq; [|done|done].
  simpl. intros id h r c Hge Hid.
  apply lookup_lt_Some in Hid. rewrite length_alter in Hid. lia.
Qed.

Lemma step_inv e s : sequencer_inv s → sequencer_inv (step assets Math_random e s).
Proof. intros Hinv. by apply render_inv, handle_inv. Qed.

Lemma run_inv es s : sequencer_inv s → sequencer_inv (run assets Math_random es s).
Proof.
  revert s. induction es as [|e es IH]; intros s Hinv; [done|].
  simpl. by apply IH, step_inv.
Qed.

Lemma mount_inv stored : sequencer_inv (mount stored).
Proof. split; [intros id h Hid; by destruct id|done]. Qed.

Lemma reachable_inv s : reachable assets Math_random s → sequencer_inv s.
Proof. intros (stored & es & ->). apply run_inv, mount_inv. Qed.



End Guard.


(** The first serene [Howl] has played to its end and music was stopped
    afterwards: its listener is still registered, the category is not
    "serene" any more, and the [Howl] is over. *)
Example listener_of_a_finished_howl :
  let s := run ASSETS cycling [ClickPlaylist "serene"; HowlEnd 0; ClickStop] (mount None) in
  onend <$> howl_at 0 s = Some (Some (NextTrack None "serene"))
  ∧ playing <$> howl_at 0 s = Some false
  ∧ currentBgmCategory s = None
  ∧ step ASSETS cycling (HowlEnd 0) s = s.
Proof. vm_compute. repeat split. Qed.

(** "battle", then "thrill" twice (the second click starts the track):
    the end of the battle track moves nothing. *)
Example late_completion_of_battle :
  let sB := run ASSETS cycling [ClickPlaylist "battle"; ClickPlaylist "thrill";
                                ClickPlaylist "thrill"] (mount None) in
  let s' := step ASSETS cycling (HowlEnd 0) sB in
  queueRef sB = ["/assets/thrill_theme.mp3"]
  ∧ bgmRef sB = Some 1
  ∧ queueIndexRef s' = queueIndexRef sB
  ∧ bgmRef s' = Some 1
  ∧ length (howls s') = 2.
Proof. vm_compute. repeat split. Qed.

(** * Further properties of the component *)

(** ** Closed forms of the handlers *)

Lemma elapse_eq ms s :
  elapse ms s =
  set_howls (run_timers (now s + ms) (timers s) (howls s)).2
    (set_timers (run_timers (now s + ms) (timers s) (howls s)).1
       (set_now (now s + ms) s)).
Proof.
  unfold elapse. simpl. by destruct (run_timers (now s + ms) (timers s) (howls s)).
Qed.

Lemma playSfx_known assets type url s :
  sfx assets !! type = Some url → url ≠ "" →
  playSfx assets type s = set_howls (howls s ++ [sfx_howl url]) s.
Proof.
  intros Ht Hu. unfold playSfx. rewrite Ht. simpl.
  rewrite bool_decide_eq_true_2 by done. simpl. by rewrite alter_new_howl.
Qed.

Lemma playSfx_unknown assets type s :
  sfx assets !! type = None ∨ sfx assets !! type = Some "" →
  playSfx assets type s = s.
Proof. intros [Ht|Ht]; unfold playSfx; by rewrite Ht. Qed.

Lemma playAudioFromBase64_eq byteArray s :
  playAudioFromBase64 byteArray s =
  set_narratorRef (Some (length (howls s)))
    (set_howls (match narratorRef s with
                | Some n => alter howl_unload n (howls s)
                | None => howls s
                end ++ [narrator_howl byteArray]) s).
Proof.
  unfold playAudioFromBase64. destruct (narratorRef s) as [n|]; simpl.
  - rewrite alter_new_howl. by rewrite length_alter.
  - by rewrite alter_new_howl.
Qed.

Lemma emit_end_idle id s :
  howls s !! id = None ∨ playing <$> howls s !! id = Some false →
  emit_end id s = s.
Proof.
  unfold emit_end. intros [Hid|Hid].
  - by rewrite Hid.
  - destruct (howls s !! id) as [h|]; [|done]. simpl in Hid. by injection Hid as ->.
Qed.

Lemma emit_end_music id h rendered category s :
  howls s !! id = Some h → playing h = true →
  onend h = Some (NextTrack rendered category) →
  superseded rendered category = false →
  let cursor := if length (queueRef s) <=? queueIndexRef s + 1
                then 0 else queueIndexRef s + 1 in
  emit_end id s =
  set_bgmRef (Some (length (howls s)))
    (set_howls (alter howl_finish id (howls s)
                ++ [music_howl (queueRef s !! cursor) rendered category (now s)])
       (set_queueIndexRef cursor s)).
Proof.
  intros Hid Hp Hl Hg cursor. unfold emit_end. rewrite Hid, Hp, Hl.
  unfold onend_NextTrack. rewrite playTrackInQueue_plays by done. subst cursor.
  simpl. destruct (length (queueRef s) <=? queueIndexRef s + 1);
    simpl; by rewrite length_alter.
Qed.

Lemma emit_end_narrator id h s :
  howls s !! id = Some h → playing h = true → onend h = Some SpeakingOff →
  emit_end id s = setIsSpeaking false (set_howls (alter howl_finish id (howls s)) s).
Proof. intros Hid Hp Hl. unfold emit_end. by rewrite Hid, Hp, Hl. Qed.

Lemma emit_end_plain id h s :
  howls s !! id = Some h → playing h = true → onend h = None →
  emit_end id s = set_howls (alter howl_finish id (howls s)) s.
Proof. intros Hid Hp Hl. unfold emit_end. by rewrite Hid, Hp, Hl. Qed.

Lemma handleStopClick_eq s :
  handleStopClick s = setCurrentBgmCategory None (stopBgm s).
Proof. done. Qed.

(** After the stop button the render has nothing to duck. *)
Lemma step_ClickStop assets Math_random s :
  step assets Math_random ClickStop s = setCurrentBgmCategory None (stopBgm s).
Proof.
  unfold step. cbn [handle]. rewrite handleStopClick_eq.
  destruct (render_cases s (setCurrentBgmCategory None (stopBgm s))) as [-> | ->]; [done|].
  apply ducking_idle. simpl. by destruct (stopBgm_fields s) as (-> & _).
Qed.

(** ** Stop, sound effects, shuffle *)

(** X10.  The stop button twice in a row does what the stop button
    once does: the second click finds no music [Howl], schedules nothing and
    leaves the state of the first click; the category is none after both. *)
Theorem stop_twice_is_stop_once assets Math_random (s : App) :
  let s1 := step assets Math_random ClickStop s in
  step assets Math_random ClickStop s1 = s1
  ∧ currentBgmCategory s1 = None
  ∧ bgmRef s1 = None.
Proof.
  cbv zeta. rewrite !step_ClickStop.
  destruct (stopBgm_fields s) as (Hb & _).
  split; [|by split].
  rewrite (stopBgm_idle (setCurrentBgmCategory None (stopBgm s))) by done.
  done.
Qed.


Section ShuffleCalls.
Context {A : Type}.
Variable Math_random : nat → UnitInterval.

(** X14.  [shuffleArray] calls [Math.random()] once per loop round,
    that is [length - 1] times, and not at all for an empty or a one-element
    array, which come back as they are. *)
Theorem shuffleArray_draws (array : list A) (calls : nat) (x : A) :
  (shuffleArray Math_random array calls).2 = calls + (length array - 1)
  ∧ shuffleArray Math_random (@nil A) calls = ([], calls)
  ∧ shuffleArray Math_random [x] calls = ([x], calls).
Proof.
  split; [apply shuffle_loop_calls|]. by split.
Qed.
End ShuffleCalls.

(** ** Starting music while the narrator may be speaking *)

Lemma render_prev_ext prev prev' s :
  isSpeaking prev = isSpeaking prev' →
  currentBgmCategory prev = currentBgmCategory prev' →
  render prev s = render prev' s.
Proof. intros H1 H2. unfold render. by rewrite H1, H2. Qed.

Lemma stopBgm_length s : length (howls (stopBgm s)) = length (howls s).
Proof.
  destruct (bgmRef s) as [b|] eqn:Hb.
  - rewrite (stopBgm_playing s b Hb). simpl. by rewrite length_alter.
  - by rewrite (stopBgm_idle s Hb).
Qed.


Section StartAndDuck.
Variable assets : Assets.
Variable Math_random : nat → UnitInterval.

End StartAndDuck.


Example start_while_narrating_is_ducked :
  let s' := run ASSETS cycling [ClickStop; ClickPlaylist "serene"] narrating_over_battle in
  isSpeaking s' = true
  ∧ target_volume <$> (bgmRef s' ≫= λ b, howl_at b s') = Some (1 # 5)%Q.
Proof. vm_compute. split; reflexivity. Qed.

Example restart_while_narrating_is_not_ducked :
  let s' := step ASSETS cycling (ClickPlaylist "battle") narrating_over_battle in
  isSpeaking s' = true
  ∧ target_volume <$> (bgmRef s' ≫= λ b, howl_at b s') = Some 1%Q.
Proof. vm_compute. split; reflexivity. Qed.

(** ** A narration from the reply to its end *)

(** What the ducking effect does, field by field. *)
Lemma ducking_fields x :
  isSpeaking (ducking x) = isSpeaking x
  ∧ bgmRef (ducking x) = bgmRef x
  ∧ (∀ id, bgmRef x ≠ Some id → howls (ducking x) !! id = howls x !! id)
  ∧ (∀ b h, bgmRef x = Some b → howls x !! b = Some h →
       howls (ducking x) !! b
       = Some (howl_fade (current_volume (now x) h) (ducking_target x) 500 (now x) h))
  ∧ (bgmRef x = None → ducking x = x).
Proof.
  destruct (bgmRef x) as [b|] eqn:Hb.
  - rewrite (ducking_playing x b Hb). simpl.
    split; [done|]. split; [done|]. split.
    { intros id Hid. apply list_lookup_alter_ne. congruence. }
    split; [|done].
    intros b' h [= <-] Hh. by rewrite list_lookup_alter_eq, Hh.
  - rewrite (ducking_idle x Hb). by repeat split.
Qed.

(** A change of the speaking flag makes the effect run. *)
Lemma render_speaking_flip prev v s :
  isSpeaking prev = negb v →
  render prev (setIsSpeaking v s) = ducking (setIsSpeaking v s).
Proof.
  intros Hp. unfold render. simpl.
  rewrite bool_decide_eq_false_2; [done|].
  rewrite Hp. destruct v; intros [? _]; done.
Qed.

Section Narration.
Variable assets : Assets.
Variable Math_random : nat → UnitInterval.

(** The reply with audio, for a call in flight. *)
Lemma step_Settled_audio byteArray s :
  isLoadingTTS s = true →
  step assets Math_random (Settled (ReplyAudio byteArray)) s
  = setIsLoadingTTS false (playAudioFromBase64 byteArray s).
Proof.
  intros Hl. unfold step. cbn [handle]. rewrite Hl. unfold handleNarrate_resume.
  apply render_same; by rewrite playAudioFromBase64_eq.
Qed.

(** X13.  When the provider call of a narration in flight comes back
    with audio, the previous narrator [Howl] is unloaded and a new one, at
    volume 1.0 with both listeners, is started and put into [narratorRef];
    the loading flag goes off and the speaking flag is still off.  The
    [play] event of the new [Howl] sets the speaking flag and the music, if
    any, is faded to 0.2; its [end] event clears the flag and the music is
    faded to 1.0. *)
Theorem narration_ducks_then_restores (byteArray : list nat) (s : App) :
  isLoadingTTS s = true → isSpeaking s = false →
  let n := length (howls s) in
  let s1 := step assets Math_random (Settled (ReplyAudio byteArray)) s in
  let s2 := step assets Math_random (HowlPlay n) s1 in
  let s3 := step assets Math_random (HowlEnd n) s2 in
  (narratorRef s1 = Some n
   ∧ howl_at n s1 = Some (narrator_howl byteArray)
   ∧ isLoadingTTS s1 = false ∧ isSpeaking s1 = false
   ∧ bgmRef s1 = bgmRef s
   ∧ match narratorRef s with
     | Some p => p < n → howl_at p s1 = howl_unload <$> howl_at p s
     | None => ∀ id, id < n → howl_at id s1 = howl_at id s
     end)
  ∧ isSpeaking s2 = true
  ∧ isSpeaking s3 = false
  ∧ playing <$> howl_at n s3 = Some false
  ∧ match bgmRef s with
    | Some b =>
        b < n →
        target_volume <$> howl_at b s2 = Some (1 # 5)%Q
        ∧ target_volume <$> howl_at b s3 = Some 1%Q
    | None =>
        howls s2 = howls s1 ∧ howls s3 = alter howl_finish n (howls s1)
    end.
Proof.
  intros Hload Hsp n s1 s2 s3.
  set (hs := match narratorRef s with
             | Some p => alter howl_unload p (howls s)
             | None => howls s
             end).
  assert (Hlen : length hs = n).
  { subst hs n. destruct (narratorRef s); [apply length_alter|done]. }
  assert (Hs1 : s1 = setIsLoadingTTS false
                       (set_narratorRef (Some n) (set_howls (hs ++ [narrator_howl byteArray]) s))).
  { subst s1. rewrite step_Settled_audio by done. by rewrite playAudioFromBase64_eq. }
  assert (Hn1 : howls s1 !! n = Some (narrator_howl byteArray)).
  { rewrite Hs1. simpl. by apply list_lookup_middle. }
  assert (Hsp1 : isSpeaking s1 = false) by by rewrite Hs1.
  assert (Hb1 : bgmRef s1 = bgmRef s) by by rewrite Hs1.
  assert (Hs2 : s2 = ducking (setIsSpeaking true s1)).
  { subst s2. unfold step. cbn [handle]. unfold emit_play. rewrite Hn1. simpl.
    by apply render_speaking_flip. }
  destruct (ducking_fields (setIsSpeaking true s1)) as (Hd2s & Hd2b & Hd2o & Hd2f & Hd2i).
  rewrite <- Hs2 in Hd2s, Hd2b, Hd2o, Hd2f, Hd2i. simpl in Hd2s, Hd2b, Hd2o, Hd2f, Hd2i.
  assert (Hn2 : ∃ h2, howls s2 !! n = Some h2 ∧ playing h2 = true
                      ∧ onend h2 = Some SpeakingOff).
  { destruct (decide (bgmRef s1 = Some n)) as [Hbn|Hbn].
    - rewrite (Hd2f n _ Hbn Hn1). eexists. by split.
    - rewrite (Hd2o n Hbn), Hn1. eexists. by split. }
  destruct Hn2 as (h2 & Hn2 & Hp2 & Hl2).
  remember (set_howls (alter howl_finish n (howls s2)) s2) as s2' eqn:Hs2'.
  assert (Hs3 : s3 = ducking (setIsSpeaking false s2')).
  { subst s3. unfold step. cbn [handle].
    rewrite (emit_end_narrator n h2 s2 Hn2 Hp2 Hl2). rewrite <- Hs2'.
    apply render_speaking_flip. by rewrite Hd2s. }
  assert (Hhs2' : howls s2' = alter howl_finish n (howls s2)) by by rewrite Hs2'.
  assert (Hbg2' : bgmRef s2' = bgmRef s2) by by rewrite Hs2'.
  destruct (ducking_fields (setIsSpeaking false s2')) as (Hd3s & Hd3b & Hd3o & Hd3f & Hd3i).
  rewrite <- Hs3 in Hd3s, Hd3b, Hd3o, Hd3f, Hd3i. simpl in Hd3s, Hd3b, Hd3o, Hd3f, Hd3i.
  assert (Hn2' : howls s2' !! n = Some (howl_finish h2))
    by by rewrite Hhs2', list_lookup_alter_eq, Hn2.
  split.
  { rewrite Hs1. unfold howl_at. simpl.
    split; [done|]. split; [by apply list_lookup_middle|].
    split; [done|]. split; [done|]. split; [done|].
    subst hs. destruct (narratorRef s) as [p|] eqn:Hp.
    - intros Hlt. rewrite lookup_app_l by (rewrite length_alter; done).
      by rewrite list_lookup_alter_eq.
    - intros id Hid. by rewrite lookup_app_l. }
  split; [done|]. split; [done|].
  split.
  { unfold howl_at. destruct (decide (bgmRef s2' = Some n)) as [Hbn|Hbn].
    - by rewrite (Hd3f n _ Hbn Hn2').
    - by rewrite (Hd3o n Hbn), Hn2'. }
  rewrite Hb1 in Hd2b. rewrite Hd2b in Hbg2'.
  destruct (bgmRef s) as [b|] eqn:Hb.
  - intros Hlt.
    assert (Hbs1 : is_Some (howls s1 !! b)).
    { apply lookup_lt_is_Some. rewrite Hs1. simpl. rewrite length_app. lia. }
    destruct Hbs1 as [hb1 Hbs1].
    unfold howl_at. rewrite (Hd2f b hb1) by (by rewrite ?Hb1). simpl.
    split; [done|].
    assert (Hbs2' : is_Some (howls s2' !! b)).
    { apply lookup_lt_is_Some. rewrite Hhs2', length_alter.
      eapply lookup_lt_Some. by apply (Hd2f b hb1); rewrite ?Hb1. }
    destruct Hbs2' as [hb2 Hbs2'].
    by rewrite (Hd3f b hb2) by done.
  - rewrite (Hd3i Hbg2'). simpl. rewrite Hhs2'.
    rewrite (Hd2i Hb1). done.
Qed.
End Narration.

Lemma narration_ducks_then_restores_witness :
  let s := run ASSETS cycling [EditKey "key"; EditText "The gate opens."; ClickNarrate]
               battle_playing in
  let n := length (howls s) in
  let s1 := step ASSETS cycling (Settled (ReplyAudio [73; 68; 51])) s in
  let s2 := step ASSETS cycling (HowlPlay n) s1 in
  let s3 := step ASSETS cycling (HowlEnd n) s2 in
  (isLoadingTTS s = true ∧ isSpeaking s = false ∧ bgmRef s = Some 0)
  ∧ (narratorRef s1 = Some n
     ∧ howl_at n s1 = Some (narrator_howl [73; 68; 51])
     ∧ isLoadingTTS s1 = false ∧ isSpeaking s1 = false
     ∧ bgmRef s1 = bgmRef s
     ∧ ∀ id, id < n → howl_at id s1 = howl_at id s)
  ∧ isSpeaking s2 = true
  ∧ isSpeaking s3 = false
  ∧ playing <$> howl_at n s3 = Some false
  ∧ (0 < n →
     target_volume <$> howl_at 0 s2 = Some (1 # 5)%Q
     ∧ target_volume <$> howl_at 0 s3 = Some 1%Q).
Proof.
  split; [repeat split|].
  apply (narration_ducks_then_restores ASSETS cycling [73; 68; 51]
           (run ASSETS cycling [EditKey "key"; EditText "The gate opens."; ClickNarrate]
                battle_playing)); reflexivity.
Defined.

(** ** The narrator's desk *)

Lemma same_desk_refl s : same_desk s s.
Proof. by repeat split. Qed.

Lemma same_desk_trans s1 s2 s3 : same_desk s1 s2 → same_desk s2 s3 → same_desk s1 s3.
Proof.
  intros (?&?&?&?&?&?) (?&?&?&?&?&?). repeat split; congruence.
Qed.

Lemma stopBgm_desk s : same_desk s (stopBgm s).
Proof.
  destruct (bgmRef s) as [b|] eqn:Hb.
  - rewrite (stopBgm_playing s b Hb). by repeat split.
  - rewrite (stopBgm_idle s Hb). apply same_desk_refl.
Qed.

Lemma playTrackInQueue_desk rendered category s :
  same_desk s (playTrackInQueue rendered category s).
Proof.
  destruct (superseded rendered category) eqn:Hg.
  - rewrite playTrackInQueue_superseded by done. apply same_desk_refl.
  - rewrite playTrackInQueue_plays by done. by repeat split.
Qed.

Lemma render_desk prev s : same_desk s (render prev s).
Proof. destruct (render_howls prev s) as (f & _ & b & ->). by repeat split. Qed.

Section Desk.
Variable assets : Assets.
Variable Math_random : nat → UnitInterval.

Lemma startPlaylist_desk category s :
  same_desk s (startPlaylist assets Math_random category s).
Proof.
  unfold startPlaylist. pose proof (stopBgm_desk s) as Hstop.
  destruct (bgm assets !! category) as [[|t0 tracks]|]; [done| |done].
  eapply same_desk_trans; [|apply playTrackInQueue_desk].
  eapply same_desk_trans; [exact Hstop|]. by repeat split.
Qed.

Lemma emit_end_desk id s : same_desk s (emit_end id s).
Proof.
  unfold emit_end. destruct (howls s !! id) as [h|]; [|apply same_desk_refl].
  destruct (playing h); [|apply same_desk_refl].
  destruct (onend h) as [[rendered category|]|]; [|by repeat split|by repeat split].
  unfold onend_NextTrack.
  eapply same_desk_trans; [|apply playTrackInQueue_desk].
  simpl. destruct (_ <=? _); by repeat split.
Qed.

(** Music, sound effects, [Howl] events and the clock leave the desk
    alone. *)
Lemma handle_desk e s :
  desk_event e = false → same_desk s (handle assets Math_random e s).
Proof.
  intros He. destruct e as [category| |type| |val|val|r|id|id|ms];
    try discriminate; cbn [handle].
  - apply startPlaylist_desk.
  - rewrite handleStopClick_eq.
    eapply same_desk_trans; [apply stopBgm_desk|]. by repeat split.
  - unfold playSfx. destruct (truthy _); [|apply same_desk_refl]. by repeat split.
  - apply emit_end_desk.
  - unfold emit_play. destruct (howls s !! id); [|apply same_desk_refl].
    destruct (_ && _); by repeat split.
  - rewrite elapse_eq. by repeat split.
Qed.

Lemma step_desk e s :
  desk_event e = false → same_desk s (step assets Math_random e s).
Proof.
  intros He. unfold step.
  eapply same_desk_trans; [by apply handle_desk|apply render_desk].
Qed.

(** What the events of the desk do to it. *)
Lemma step_EditKey val s :
  step assets Math_random (EditKey val) s = localStorage_setItem val (set_apiKey val s).
Proof. unfold step. cbn [handle]. by apply render_same. Qed.

Lemma step_EditText val s :
  step assets Math_random (EditText val) s = setNarratorText val s.
Proof. unfold step. cbn [handle]. by apply render_same. Qed.

Lemma step_ClickNarrate s :
  step assets Math_random ClickNarrate s =
  if isLoadingTTS s || isSpeaking s then s
  else if bool_decide (apiKey s = "")
       then alert "Please enter a Google Cloud API Key first." s
       else if bool_decide (narratorText s = "") then s
            else fetch (apiKey s) (narratorText s) (setIsLoadingTTS true s).
Proof.
  unfold step. cbn [handle]. apply render_same;
    destruct (_ || _); try done; unfold handleNarrate; by repeat case_bool_decide.
Qed.

Lemma step_Settled r s :
  step assets Math_random (Settled r) s =
  if isLoadingTTS s then
    setIsLoadingTTS false
      match r with
      | ReplyError message => alert ("Error: " +:+ message) s
      | ReplyAudio byteArray => playAudioFromBase64 byteArray s
      | ReplyFailure message => alert ("Error: " +:+ message) s
      end
  else s.
Proof.
  unfold step. cbn [handle]. apply render_same;
    destruct (isLoadingTTS s); try done; unfold handleNarrate_resume;
    destruct r; try done; by rewrite playAudioFromBase64_eq.
Qed.

(** X7.  The key field and the stored key agree in every state the
    component can reach: what the user typed last is what is stored, and a
    component mounted again on that storage starts with the same key. *)
Theorem stored_key_round_trip (stored : option string) (es : list Event) :
  let s := run assets Math_random es (mount stored) in
  apiKey s = default "" (localStorage s)
  ∧ apiKey (mount (localStorage s)) = apiKey s
  ∧ (∀ val, let s' := step assets Math_random (EditKey val) s in
            apiKey s' = val ∧ localStorage s' = Some val).
Proof.
  cbv zeta.
  assert (Hinv : ∀ s, apiKey s = default "" (localStorage s) →
                 apiKey (run assets Math_random es s)
                 = default "" (localStorage (run assets Math_random es s))).
  { induction es as [|e es IH]; intros s Hs; [done|].
    simpl. apply IH.
    destruct (desk_event e) eqn:He.
    - destruct e; try discriminate.
      + rewrite step_ClickNarrate.
        destruct (_ || _); [done|]. by repeat case_bool_decide.
      + by rewrite step_EditKey.
      + by rewrite step_EditText.
      + rewrite step_Settled. destruct (isLoadingTTS s); [|done].
        destruct r; rewrite ?playAudioFromBase64_eq; done.
    - destruct (step_desk e s He) as (-> & _ & _ & _ & -> & _). done. }
  split; [by apply Hinv|]. split.
  - simpl. symmetry. by apply Hinv.
  - intros val. by rewrite step_EditKey.
Qed.

(** X8.  The provider is never called with an empty key or an empty
    text: every request the component has made, in any state it can reach,
    carries a key and a text that are not empty. *)
Theorem requests_carry_key_and_text (stored : option string) (es : list Event)
    (key text : string) :
  (key, text) ∈ requests (run assets Math_random es (mount stored)) →
  key ≠ "" ∧ text ≠ "".
Proof.
  assert (Hinv : ∀ s, (∀ k t, (k, t) ∈ requests s → k ≠ "" ∧ t ≠ "") →
                 ∀ k t, (k, t) ∈ requests (run assets Math_random es s) →
                        k ≠ "" ∧ t ≠ "").
  { induction es as [|e es IH]; intros s Hs; [done|].
    simpl. apply IH. intros k t.
    destruct (desk_event e) eqn:He.
    - destruct e; try discriminate.
      + rewrite step_ClickNarrate.
        destruct (_ || _); [apply Hs|].
        case_bool_decide as Hk; [apply Hs|].
        case_bool_decide as Ht; [apply Hs|].
        simpl. rewrite elem_of_app, list_elem_of_singleton.
        intros [Hin|[= -> ->]]; [by apply Hs|done].
      + rewrite step_EditKey. apply Hs.
      + rewrite step_EditText. apply Hs.
      + rewrite step_Settled. destruct (isLoadingTTS s); [|apply Hs].
        destruct r; rewrite ?playAudioFromBase64_eq; apply Hs.
    - destruct (step_desk e s He) as (_ & _ & _ & -> & _). apply Hs. }
  apply Hinv. intros k t Hin. by apply elem_of_nil in Hin.
Qed.

(** X9.  One call at a time: once [handleNarrate] has sent a request,
    the loading flag stays on and no further request is sent, whatever
    happens, until the call settles; when it settles, with whatever reply,
    the flag goes off. *)
Theorem one_request_in_flight (s : App) (es : list Event) (r : Reply) :
  isLoadingTTS s = false → isSpeaking s = false →
  apiKey s ≠ "" → narratorText s ≠ "" →
  (∀ r', Settled r' ∉ es) →
  let s1 := step assets Math_random ClickNarrate s in
  let s2 := run assets Math_random es s1 in
  let s3 := step assets Math_random (Settled r) s2 in
  requests s1 = requests s ++ [(apiKey s, narratorText s)]
  ∧ isLoadingTTS s1 = true
  ∧ requests s2 = requests s1
  ∧ isLoadingTTS s2 = true
  ∧ requests s3 = requests s1
  ∧ isLoadingTTS s3 = false.
Proof.
  intros Hl Hsp Hk Ht Hes s1 s2 s3.
  assert (Hs1 : s1 = fetch (apiKey s) (narratorText s) (setIsLoadingTTS true s)).
  { subst s1. rewrite step_ClickNarrate, Hl, Hsp. simpl.
    by rewrite !bool_decide_eq_false_2. }
  assert (Hrun : ∀ es x, (∀ r', Settled r' ∉ es) → isLoadingTTS x = true →
                 requests (run assets Math_random es x) = requests x
                 ∧ isLoadingTTS (run assets Math_random es x) = true).
  { clear. induction es as [|e es IH]; intros x Hes Hx; [done|].
    simpl.
    assert (Hstep : requests (step assets Math_random e x) = requests x
                    ∧ isLoadingTTS (step assets Math_random e x) = true).
    { destruct (desk_event e) eqn:He.
      - destruct e; try discriminate.
        + by rewrite step_ClickNarrate, Hx.
        + by rewrite step_EditKey.
        + by rewrite step_EditText.
        + destruct (Hes r). apply elem_of_cons. by left.
      - destruct (step_desk e x He) as (_ & _ & -> & -> & _). done. }
    destruct Hstep as [Hr Hl].
    destruct (IH (step assets Math_random e x)) as [-> ->]; [|done|done].
    intros r' Hin. apply (Hes r'). apply elem_of_cons. by right. }
  destruct (Hrun es s1 Hes) as [Hr2 Hl2]; [by rewrite Hs1|].
  fold s2 in Hr2, Hl2.
  split; [by rewrite Hs1|]. split; [by rewrite Hs1|].
  split; [done|]. split; [done|].
  subst s3. rewrite step_Settled, Hl2.
  destruct r; rewrite ?playAudioFromBase64_eq; simpl; by rewrite ?Hr2.
Qed.
End Desk.

(** ** What holds in every reachable state *)

(** The [Howl] at [id] after the timers that are due have run. *)
Lemma run_timers_lookup t ts hs id :
  (run_timers t ts hs).2 !! id =
  if due_for t id ts then (λ h, howl_unload (howl_stop h)) <$> hs !! id else hs !! id.
Proof.
  revert hs. induction ts as [|[due old] ts IH]; intros hs; simpl; [done|].
  destruct (due <=? t) eqn:Hdue; simpl.
  - rewrite IH. rewrite list_lookup_alter.
    destruct (old =? id) eqn:Hold.
    + apply Nat.eqb_eq in Hold. subst old. rewrite decide_True by done. simpl.
      destruct (due_for t id ts); [|done]. by destruct (hs !! id).
    + apply Nat.eqb_neq in Hold. rewrite decide_False by done. done.
  - specialize (IH hs). by destruct (run_timers t ts hs).
Qed.

Lemma due_for_pending t id ts :
  due_for t id ts = true → ∃ due, (due, id) ∈ ts ∧ due ≤ t.
Proof.
  induction ts as [|[due old] ts IH]; simpl; [done|].
  intros Hex. apply orb_prop in Hex as [Hhere|Hthere].
  - apply andb_prop in Hhere as [Hdue Hold].
    apply Nat.leb_le in Hdue. apply Nat.eqb_eq in Hold. subst old.
    exists due. split; [apply elem_of_cons; by left|done].
  - destruct (IH Hthere) as (due' & Hin & Hle).
    exists due'. split; [apply elem_of_cons; by right|done].
Qed.

(** The timers that stay are the ones that are not due. *)
Lemma run_timers_rest t ts hs due id :
  (due, id) ∈ (run_timers t ts hs).1 → (due, id) ∈ ts ∧ t < due.
Proof.
  revert hs. induction ts as [|[due' old] ts IH]; intros hs; simpl.
  - intros Hin. by apply elem_of_nil in Hin.
  - destruct (due' <=? t) eqn:Hdue.
    + intros Hin. destruct (IH _ Hin) as [Hin' Hlt].
      split; [apply elem_of_cons; by right|done].
    + specialize (IH hs). destruct (run_timers t ts hs) as [rest hs'].
      simpl in *. intros Hin. apply elem_of_cons in Hin as [Heq|Hin].
      * injection Heq as -> ->. apply Nat.leb_gt in Hdue.
        split; [apply elem_of_cons; by left|done].
      * destruct (IH Hin) as [Hin' Hlt].
        split; [apply elem_of_cons; by right|done].
Qed.

Lemma is_configured_src assets h h' :
  src h' = src h → is_configured assets h → is_configured assets h'.
Proof. unfold is_configured. by intros ->. Qed.

(** The invariants read the state through these fields only. *)
Lemma between_tracks_ext assets s s' :
  howls s' = howls s → narratorRef s' = narratorRef s →
  timers s' = timers s → now s' = now s → queueRef s' = queueRef s →
  queueIndexRef s' = queueIndexRef s → currentBgmCategory s' = currentBgmCategory s →
  between_tracks assets s → between_tracks assets s'.
Proof.
  intros Hh Hn Ht Hnow Hq Hi Hc ([Hn1 Hn2] & Htm & [Hq1 Hq2] & Hsrc).
  split.
  { split.
    - intros n. rewrite Hn. intros Hnr.
      destruct (Hn1 n Hnr) as (h & bytes & ?). exists h, bytes. by rewrite Hh.
    - intros id h. rewrite Hh, Hn. apply Hn2. }
  split.
  { intros due id. rewrite Ht, Hnow, Hh. apply Htm. }
  split.
  { split.
    - intros category. rewrite Hc, Hq. apply Hq1.
    - by rewrite Hq, Hi. }
  intros id h. rewrite Hh. apply Hsrc.
Qed.

Lemma music_inv_ext s s' :
  howls s' = howls s → bgmRef s' = bgmRef s → queueRef s' = queueRef s →
  queueIndexRef s' = queueIndexRef s →
  music_inv s → music_inv s'.
Proof.
  intros Hh Hb Hq Hi Hm b. rewrite Hb. intros Hbs.
  destruct (Hm b Hbs) as (h & r & c & ?). exists h, r, c. by rewrite Hh, Hq, Hi.
Qed.

(** A method call that leaves source, listeners and resource of the
    [Howl] alone. *)
Lemma between_tracks_alter assets f id s :
  (∀ h, src (f h) = src h ∧ onend (f h) = onend h ∧ onplay (f h) = onplay h
        ∧ unloaded (f h) = unloaded h) →
  between_tracks assets s →
  between_tracks assets (set_howls (alter f id (howls s)) s).
Proof.
  intros Hf ([Hn1 Hn2] & Htm & Hq & Hsrc).
  split.
  { split.
    - intros n Hn. destruct (Hn1 n Hn) as (h & bytes & Hh & Hs & Hu & He & Hp).
      unfold narrator_kept. simpl. rewrite list_lookup_alter. case_decide.
      + subst id. rewrite Hh. simpl. exists (f h), bytes.
        destruct (Hf h) as (-> & -> & -> & ->). done.
      + by exists h, bytes.
    - intros id' h'. simpl. rewrite list_lookup_alter. case_decide.
      + subst id'. destruct (howls s !! id) as [h|] eqn:Hh; [|done].
        simpl. intros [= <-]. destruct (Hf h) as (_ & -> & -> & _). by apply Hn2.
      + apply Hn2. }
  split.
  { intros due id' Hin. destruct (Htm due id' Hin) as (Hlt & h & Hh & He & Hp).
    split; [done|]. simpl. rewrite list_lookup_alter. case_decide.
    - subst id'. rewrite Hh. simpl. exists (f h).
      destruct (Hf h) as (_ & -> & -> & _). done.
    - by exists h. }
  split; [done|].
  intros id' h'. simpl. rewrite list_lookup_alter. case_decide.
  - subst id'. destruct (howls s !! id) as [h|] eqn:Hh; [|done].
    simpl. intros [= <-]. apply (is_configured_src assets h); [apply Hf|by eapply Hsrc].
  - apply Hsrc.
Qed.

Lemma music_inv_alter f id s :
  (∀ h, src (f h) = src h ∧ onend (f h) = onend h ∧ onplay (f h) = onplay h
        ∧ unloaded (f h) = unloaded h) →
  (bgmRef s = Some id → ∀ h, playing (f h) = playing h) →
  music_inv s → music_inv (set_howls (alter f id (howls s)) s).
Proof.
  intros Hf Hplay Hm b Hb. simpl in Hb.
  destruct (Hm b Hb) as (h & r & c & Hh & Hp & Hu & Hop & He & Hs).
  unfold music_live. simpl. rewrite list_lookup_alter. case_decide.
  - subst id. rewrite Hh. simpl. exists (f h), r, c.
    destruct (Hf h) as (-> & -> & -> & ->). rewrite (Hplay Hb h). done.
  - by exists h, r, c.
Qed.

Lemma between_tracks_append assets h0 s :
  is_configured assets h0 → onend h0 ≠ Some SpeakingOff → onplay h0 = false →
  between_tracks assets s →
  between_tracks assets (set_howls (howls s ++ [h0]) s).
Proof.
  intros Hc He Hp ([Hn1 Hn2] & Htm & Hq & Hsrc).
  split.
  { split.
    - intros n Hn. destruct (Hn1 n Hn) as (h & bytes & Hh & ?).
      exists h, bytes. split; [by apply lookup_app_l_Some|done].
    - intros id h. simpl. intros Hid Hl.
      apply lookup_app_Some in Hid as [Hid|[_ Hid]]; [by apply (Hn2 id h)|].
      apply list_lookup_singleton_Some in Hid as [_ <-].
      destruct Hl as [Hl|Hl]; [done|congruence]. }
  split.
  { intros due id Hin. destruct (Htm due id Hin) as (Hlt & h & Hh & ?).
    split; [done|]. exists h. split; [by apply lookup_app_l_Some|done]. }
  split; [done|].
  intros id h. simpl. intros Hid.
  apply lookup_app_Some in Hid as [Hid|[_ Hid]]; [by eapply Hsrc|].
  by apply list_lookup_singleton_Some in Hid as [_ <-].
Qed.

Lemma music_inv_append h0 s :
  music_inv s → music_inv (set_howls (howls s ++ [h0]) s).
Proof.
  intros Hm b Hb. destruct (Hm b Hb) as (h & r & c & Hh & ?).
  exists h, r, c. split; [by apply lookup_app_l_Some|done].
Qed.

(** The state [playTrackInQueue] leaves when it plays. *)
Lemma play_well_formed assets rendered category s :
  between_tracks assets s → currentBgmCategory s = Some category →
  let s' := set_bgmRef (Some (length (howls s)))
              (set_howls (howls s ++ [music_howl (queueRef s !! queueIndexRef s)
                                                 rendered category (now s)]) s) in
  music_inv s' ∧ between_tracks assets s'.
Proof.
  intros Hbt Hcur s'. split.
  - intros b [= <-]. unfold music_live. simpl.
    eexists _, rendered, category. split; [by apply list_lookup_middle|]. done.
  - apply (between_tracks_ext assets
             (set_howls (howls s ++ [music_howl (queueRef s !! queueIndexRef s)
                                                rendered category (now s)]) s));
      try done.
    apply between_tracks_append; [|done|done|done].
    destruct Hbt as (_ & _ & [Hq1 Hq2] & _).
    destruct (Hq1 category Hcur) as (tracks & Ht & Hne & Hperm).
    destruct Hq2 as [Hlt|[Hnil _]].
    + destruct (lookup_lt_is_Some_2 _ _ Hlt) as [file Hfile].
      unfold is_configured. simpl. exists file. split; [done|]. left.
      exists category, tracks. split; [done|]. rewrite <- Hperm.
      by eapply list_elem_of_lookup_2.
    + rewrite Hnil in Hperm. apply Permutation_nil_l in Hperm. done.
Qed.

Lemma stop_between_tracks assets s :
  music_inv s → between_tracks assets s → between_tracks assets (stopBgm s).
Proof.
  intros Hm Hbt. destruct (bgmRef s) as [b|] eqn:Hb; [|by rewrite stopBgm_idle].
  rewrite (stopBgm_playing s b Hb).
  destruct (Hm b Hb) as (hb & r & c & Hhb & _ & _ & Hopb & Heb & _).
  destruct Hbt as ([Hn1 Hn2] & Htm & Hq & Hsrc).
  split.
  { split.
    - intros n Hn. simpl in Hn. destruct (Hn1 n Hn) as (h & bytes & Hh & Hs & Hu & He & Hp).
      exists h, bytes. simpl. rewrite list_lookup_alter_ne; [done|].
      intros ->. congruence.
    - intros id h. simpl. rewrite list_lookup_alter. case_decide.
      + subst id. rewrite Hhb. simpl. intros [= <-]. simpl. rewrite Hopb.
        intros [?|?]; done.
      + apply Hn2. }
  split.
  { intros due id. simpl. rewrite elem_of_app, list_elem_of_singleton.
    intros [Hin|[= -> ->]].
    - destruct (Htm due id Hin) as (Hlt & h & Hh & He & Hp).
      split; [done|]. rewrite list_lookup_alter. case_decide.
      + subst id. rewrite Hh. simpl. eexists. split; [done|]. by split.
      + by exists h.
    - split; [lia|]. rewrite list_lookup_alter_eq, Hhb. simpl.
      eexists. split; [done|]. by split. }
  split; [done|].
  intros id h. simpl. rewrite list_lookup_alter. case_decide.
  - subst id. rewrite Hhb. simpl. intros [= <-].
    apply (is_configured_src assets hb); [done|by eapply Hsrc].
  - apply Hsrc.
Qed.

Lemma stop_click_between_tracks assets s :
  between_tracks assets s → between_tracks assets (setCurrentBgmCategory None s).
Proof.
  intros (Hn & Htm & [Hq1 Hq2] & Hsrc).
  split; [done|]. split; [done|]. split; [|done].
  split; [intros category; simpl; done|done].
Qed.

Section WellFormed.
Variable assets : Assets.
Variable Math_random : nat → UnitInterval.

Lemma start_between_tracks category tracks calls s :
  bgm assets !! category = Some tracks → tracks ≠ [] →
  between_tracks assets s →
  between_tracks assets
    (set_queueIndexRef 0
       (set_queueRef (shuffleArray Math_random tracks calls)
          (setCurrentBgmCategory (Some category) s))).
Proof.
  intros Ht Hne (Hn & Htm & _ & Hsrc).
  pose proof (shuffleArray_Permutation Math_random tracks calls) as Hperm.
  split; [done|]. split; [done|]. split; [|done].
  split.
  - intros c. simpl. intros [= <-]. by exists tracks.
  - left. simpl. rewrite Hperm. destruct tracks; [done|simpl; lia].
Qed.

Lemma narrate_well_formed byteArray s :
  music_inv s → between_tracks assets s →
  music_inv (playAudioFromBase64 byteArray s)
  ∧ between_tracks assets (playAudioFromBase64 byteArray s).
Proof.
  intros Hm Hbt. rewrite playAudioFromBase64_eq.
  set (hs := match narratorRef s with
             | Some n => alter howl_unload n (howls s)
             | None => howls s
             end).
  assert (Hlen : length hs = length (howls s)).
  { subst hs. destruct (narratorRef s); [apply length_alter|done]. }
  destruct Hbt as ([Hn1 Hn2] & Htm & Hq & Hsrc).
  assert (Hold : ∀ id h', hs !! id = Some h' →
            ∃ h, howls s !! id = Some h
                 ∧ ((narratorRef s ≠ Some id ∧ h' = h)
                    ∨ (narratorRef s = Some id ∧ h' = howl_unload h))).
  { subst hs. intros id h'. destruct (narratorRef s) as [p|] eqn:Hp.
    - rewrite list_lookup_alter. case_decide.
      + subst id. destruct (howls s !! p) as [h|]; [|done]. simpl.
        intros [= <-]. exists h. split; [done|]. by right.
      + intros Hid. exists h'. split; [done|]. left. split; [congruence|done].
    - intros Hid. exists h'. split; [done|]. by left. }
  assert (Hkeep : ∀ id h, howls s !! id = Some h → narratorRef s ≠ Some id →
            hs !! id = Some h).
  { subst hs. intros id h Hid Hne. destruct (narratorRef s) as [p|]; [|done].
    rewrite list_lookup_alter_ne; [done|congruence]. }
  split.
  { intros b Hb. simpl in Hb.
    destruct (Hm b Hb) as (h & r & c & Hh & Hp & Hu & Hop & He & Hs).
    exists h, r, c. simpl. split; [|done].
    apply lookup_app_l_Some, Hkeep; [done|].
    intros Hnb. destruct (Hn1 b Hnb) as (h' & bytes & Hh' & _ & _ & He' & _).
    congruence. }
  split.
  { split.
    - intros n. simpl. intros [= <-].
      exists (narrator_howl byteArray), byteArray.
      split; [by apply list_lookup_middle|done].
    - intros id h'. simpl. intros Hid Hl. f_equal.
      apply lookup_app_Some in Hid as [Hid|[Hge Hid]].
      + destruct (Hold id h' Hid) as (h & Hh & [[Hne ->]|[Hnr ->]]).
        * destruct Hne. by apply (Hn2 id h).
        * simpl in Hl. destruct Hl; done.
      + apply list_lookup_singleton_Some in Hid as [Hz _]. lia. }
  split.
  { intros due id Hin. destruct (Htm due id Hin) as (Hlt & h & Hh & He & Hp).
    split; [done|]. simpl.
    destruct (decide (narratorRef s = Some id)) as [Hnr|Hne].
    - destruct (Hn1 id Hnr) as (h' & bytes & Hh' & _ & _ & He' & _). congruence.
    - exists h. split; [|done]. by apply lookup_app_l_Some, Hkeep. }
  split; [done|].
  intros id h'. simpl. intros Hid.
  apply lookup_app_Some in Hid as [Hid|[_ Hid]].
  - destruct (Hold id h' Hid) as (h & Hh & [[_ ->]|[_ ->]]); [by eapply Hsrc|].
    apply (is_configured_src assets h); [done|by eapply Hsrc].
  - by apply list_lookup_singleton_Some in Hid as [_ <-].
Qed.

Lemma elapse_well_formed ms s :
  music_inv s → between_tracks assets s →
  music_inv (elapse ms s) ∧ between_tracks assets (elapse ms s).
Proof.
  intros Hm Hbt. rewrite elapse_eq.
  destruct Hbt as ([Hn1 Hn2] & Htm & Hq & Hsrc).
  set (t := now s + ms).
  assert (Hsame : ∀ id h, howls s !! id = Some h →
            onend h ≠ None ∨ onplay h = true →
            (run_timers t (timers s) (howls s)).2 !! id = Some h).
  { intros id h Hid Hl. rewrite run_timers_lookup.
    destruct (due_for t id (timers s)) eqn:Hdue; [|done].
    destruct (due_for_pending _ _ _ Hdue) as (due & Hin & _).
    destruct (Htm due id Hin) as (_ & h' & Hh' & He & Hp).
    assert (h' = h) by congruence. subst h'.
    destruct Hl as [Hl|Hl]; congruence. }
  assert (Hold : ∀ id h', (run_timers t (timers s) (howls s)).2 !! id = Some h' →
            ∃ h, howls s !! id = Some h ∧ src h' = src h
                 ∧ (h' = h ∨ (onend h' = None ∧ onplay h' = false))).
  { intros id h'. rewrite run_timers_lookup.
    destruct (due_for t id (timers s)).
    - destruct (howls s !! id) as [h|]; [|done]. simpl. intros [= <-].
      exists h. split; [done|]. split; [done|]. by right.
    - intros Hid. exists h'. split; [done|]. split; [done|]. by left. }
  split.
  { intros b Hb. simpl in Hb.
    destruct (Hm b Hb) as (h & r & c & Hh & Hp & Hu & Hop & He & Hs).
    exists h, r, c. simpl. split; [|done].
    apply Hsame; [done|]. left. congruence. }
  split.
  { split.
    - intros n Hn. simpl in Hn.
      destruct (Hn1 n Hn) as (h & bytes & Hh & Hs & Hu & He & Hp).
      exists h, bytes. simpl. split; [|done]. apply Hsame; [done|]. by right.
    - intros id h'. simpl. intros Hid Hl.
      destruct (Hold id h' Hid) as (h & Hh & _ & [->|[He Hp]]).
      + by apply (Hn2 id h).
      + destruct Hl; congruence. }
  split.
  { intros due id. simpl. intros Hin.
    destruct (run_timers_rest _ _ _ _ _ Hin) as [Hin' Hlt].
    split; [done|].
    destruct (Htm due id Hin') as (_ & h & Hh & He & Hp).
    destruct (run_timers_grows t (timers s) (howls s) id h Hh)
      as (h' & Hh' & Hend & _ & _ & Hplay).
    exists h'. split; [done|]. split.
    - destruct (onend h') as [l|] eqn:Hl; [|done].
      specialize (Hend l eq_refl). congruence.
    - destruct (onplay h'); [|done]. specialize (Hplay eq_refl). congruence. }
  split; [done|].
  intros id h'. simpl. intros Hid.
  destruct (Hold id h' Hid) as (h & Hh & Hs & _).
  apply (is_configured_src assets h); [done|by eapply Hsrc].
Qed.
End WellFormed.

Lemma cursor_between_tracks assets category s :
  currentBgmCategory s = Some category →
  between_tracks assets s →
  between_tracks assets
    (set_queueIndexRef (if length (queueRef s) <=? queueIndexRef s + 1
                        then 0 else queueIndexRef s + 1) s).
Proof.
  intros Hcur (Hn & Htm & [Hq1 Hq2] & Hsrc).
  split; [done|]. split; [done|]. split; [|done].
  split; [done|]. left. simpl.
  destruct (Hq1 category Hcur) as (tracks & _ & Hne & Hperm).
  assert (0 < length (queueRef s)).
  { rewrite Hperm. destruct tracks; [done|simpl; lia]. }
  destruct (length (queueRef s) <=? queueIndexRef s + 1) eqn:Hw; [done|].
  apply Nat.leb_gt in Hw. lia.
Qed.

Lemma render_well_formed assets prev s :
  music_inv s → between_tracks assets s →
  music_inv (render prev s) ∧ between_tracks assets (render prev s).
Proof.
  intros Hm Hbt.
  destruct (render_cases prev s) as [-> | ->]; [done|].
  destruct (bgmRef s) as [b|] eqn:Hb; [|by rewrite ducking_idle].
  rewrite (ducking_playing s b Hb). split.
  - by apply music_inv_alter.
  - by apply between_tracks_alter.
Qed.

Section Reachable.
Variable assets : Assets.
Variable Math_random : nat → UnitInterval.

Lemma handle_well_formed e s :
  well_formed assets s →
  music_inv (handle assets Math_random e s)
  ∧ between_tracks assets (handle assets Math_random e s).
Proof.
  intros (Hseq & Hm & Hbt).
  destruct e as [category| |type| |val|val|r|id|id|ms]; cbn [handle].
  - (* startPlaylist *)
    unfold startPlaylist.
    pose proof (stop_between_tracks assets s Hm Hbt) as Hstop.
    destruct (stopBgm_fields s) as (Hnone & _).
    assert (Hm0 : music_inv (stopBgm s)) by (intros b; by rewrite Hnone).
    destruct (bgm assets !! category) as [[|t0 tracks]|] eqn:Ht; [done| |done].
    set (s2 := set_queueIndexRef 0 _).
    assert (Hbt2 : between_tracks assets s2)
      by by apply (start_between_tracks assets Math_random category (t0 :: tracks)).
    destruct (superseded (currentBgmCategory s) category) eqn:Hg.
    + rewrite playTrackInQueue_superseded by done.
      split; [|done]. intros b. subst s2. simpl. by rewrite Hnone.
    + rewrite playTrackInQueue_plays by done.
      by apply (play_well_formed assets (currentBgmCategory s) category s2).
  - (* handleStopClick *)
    rewrite handleStopClick_eq.
    destruct (stopBgm_fields s) as (Hnone & _).
    split; [intros b; simpl; by rewrite Hnone|].
    by apply stop_click_between_tracks, stop_between_tracks.
  - (* playSfx *)
    destruct (sfx assets !! type) as [url|] eqn:Ht; [|by rewrite playSfx_unknown; auto].
    destruct (decide (url = "")) as [->|Hu]; [by rewrite playSfx_unknown; auto|].
    rewrite (playSfx_known assets type url s Ht Hu). split.
    + by apply music_inv_append.
    + apply between_tracks_append; [|done|done|done].
      unfold is_configured. simpl. exists url. split; [done|]. right. by exists type.
  - (* handleNarrate *)
    destruct (_ || _); [done|]. unfold handleNarrate.
    repeat case_bool_decide; (split;
      [by apply (music_inv_ext s)|by apply (between_tracks_ext assets s)]).
  - split; [by apply (music_inv_ext s)|by apply (between_tracks_ext assets s)].
  - split; [by apply (music_inv_ext s)|by apply (between_tracks_ext assets s)].
  - (* the call settles *)
    destruct (isLoadingTTS s); [|done]. unfold handleNarrate_resume.
    destruct r as [message|byteArray|message];
      try (split; [by apply (music_inv_ext s)|by apply (between_tracks_ext assets s)]).
    destruct (narrate_well_formed assets byteArray s Hm Hbt) as [Hm' Hbt'].
    split; [by apply (music_inv_ext (playAudioFromBase64 byteArray s))
           |by apply (between_tracks_ext assets (playAudioFromBase64 byteArray s))].
  - (* the end of a sound *)
    destruct (howls s !! id) as [h|] eqn:Hid; [|by rewrite emit_end_idle; auto].
    destruct (playing h) eqn:Hp;
      [|by rewrite emit_end_idle; [|right; rewrite Hid; simpl; congruence]].
    assert (Hfin : ∀ h, src (howl_finish h) = src h ∧ onend (howl_finish h) = onend h
                        ∧ onplay (howl_finish h) = onplay h
                        ∧ unloaded (howl_finish h) = unloaded h) by done.
    pose proof (between_tracks_alter assets howl_finish id s Hfin Hbt) as Hbt1.
    destruct (onend h) as [[rendered category|]|] eqn:Hl.
    + destruct Hseq as [Hok _].
      destruct (Hok id h Hid rendered category Hl) as [Hsup Hcur].
      destruct (Hcur Hp) as [Hb Hc].
      rewrite (emit_end_music id h rendered category s Hid Hp Hl Hsup).
      pose proof (cursor_between_tracks assets category
                    (set_howls (alter howl_finish id (howls s)) s) Hc Hbt1) as Hbt2.
      destruct (play_well_formed assets rendered category _ Hbt2 Hc) as [Hm3 Hbt3].
      simpl in Hm3, Hbt3. rewrite length_alter in Hm3, Hbt3. done.
    + rewrite (emit_end_narrator id h s Hid Hp Hl). split.
      * apply (music_inv_ext (set_howls (alter howl_finish id (howls s)) s)); try done.
        apply music_inv_alter; [done| |done].
        intros Hb. destruct (Hm id Hb) as (h' & ? & ? & Hh' & _ & _ & _ & He & _).
        congruence.
      * by apply (between_tracks_ext assets (set_howls (alter howl_finish id (howls s)) s)).
    + rewrite (emit_end_plain id h s Hid Hp Hl). split; [|done].
      apply music_inv_alter; [done| |done].
      intros Hb. destruct (Hm id Hb) as (h' & ? & ? & Hh' & _ & _ & _ & He & _).
      congruence.
  - (* the start of a sound *)
    unfold emit_play. destruct (howls s !! id); [|done].
    destruct (_ && _); [|done].
    split; [by apply (music_inv_ext s)|by apply (between_tracks_ext assets s)].
  - by apply elapse_well_formed.
Qed.

Lemma step_well_formed e s :
  well_formed assets s → well_formed assets (step assets Math_random e s).
Proof.
  intros Hwf. split; [apply step_inv; by destruct Hwf|].
  destruct (handle_well_formed e s Hwf) as [Hm Hbt].
  by apply render_well_formed.
Qed.

Lemma mount_well_formed stored : well_formed assets (mount stored).
Proof.
  split; [apply mount_inv|]. split; [done|].
  split; [split; [done|intros id h Hid; by destruct id]|].
  split; [intros due id Hin; by apply elem_of_nil in Hin|].
  split; [split; [done|by right]|].
  intros id h Hid. by destruct id.
Qed.

Lemma run_well_formed es s :
  well_formed assets s → well_formed assets (run assets Math_random es s).
Proof.
  revert s. induction es as [|e es IH]; intros s Hwf; [done|].
  simpl. by apply IH, step_well_formed.
Qed.

Lemma reachable_well_formed stored es :
  well_formed assets (run assets Math_random es (mount stored)).
Proof. apply run_well_formed, mount_well_formed. Qed.
End Reachable.

(** ** Properties of every reachable state *)

Section Everywhere.
Variable assets : Assets.
Variable Math_random : nat → UnitInterval.




(** X4.  In every state the component can reach, every pending timer
    is due strictly in the future and targets a [Howl] that has no listener
    left; it is neither the [Howl] in [bgmRef] nor the one in
    [narratorRef]. *)
Theorem timers_stop_detached_howls
    (stored : option string) (es : list Event) (due id : nat) :
  let s := run assets Math_random es (mount stored) in
  (due, id) ∈ timers s →
  now s < due
  ∧ (∃ h, howls s !! id = Some h ∧ onend h = None ∧ onplay h = false)
  ∧ bgmRef s ≠ Some id ∧ narratorRef s ≠ Some id.
Proof.
  intros s Hin.
  destruct (reachable_well_formed assets Math_random stored es)
    as (_ & Hm & [Hn1 _] & Htm & _).
  fold s in Hm, Hn1, Htm.
  destruct (Htm due id Hin) as (Hlt & h & Hh & He & Hp).
  split; [done|]. split; [by exists h|]. split.
  - intros Hb. destruct (Hm id Hb) as (h' & ? & ? & Hh' & _ & _ & _ & He' & _).
    congruence.
  - intros Hn. destruct (Hn1 id Hn) as (h' & ? & Hh' & _ & _ & He' & _).
    congruence.
Qed.


End Everywhere.




Lemma timers_stop_detached_howls_witness :
  let s := run ASSETS cycling [ClickPlaylist "battle"; Elapse 300; ClickStop] (mount None) in
  (1300, 0) ∈ timers s
  ∧ now s < 1300
  ∧ (∃ h, howls s !! 0 = Some h ∧ onend h = None ∧ onplay h = false)
  ∧ bgmRef s ≠ Some 0 ∧ narratorRef s ≠ Some 0.
Proof.
  assert (Hin : (1300, 0) ∈ timers (run ASSETS cycling
                   [ClickPlaylist "battle"; Elapse 300; ClickStop] (mount None)))
    by (vm_compute; apply list_elem_of_here).
  split; [exact Hin|].
  exact (timers_stop_detached_howls ASSETS cycling None
           [ClickPlaylist "battle"; Elapse 300; ClickStop] 1300 0 Hin).
Defined.



Lemma requests_carry_key_and_text_witness :
  let s := run ASSETS cycling [EditKey "key"; EditText "The gate opens."; ClickNarrate]
               (mount None) in
  ("key", "The gate opens.") ∈ requests s
  ∧ "key" ≠ "" ∧ "The gate opens." ≠ "".
Proof.
  assert (Hin : ("key", "The gate opens.")
                ∈ requests (run ASSETS cycling
                              [EditKey "key"; EditText "The gate opens."; ClickNarrate]
                              (mount None)))
    by (vm_compute; apply list_elem_of_here).
  split; [exact Hin|].
  exact (requests_carry_key_and_text ASSETS cycling None
           [EditKey "key"; EditText "The gate opens."; ClickNarrate]
           "key" "The gate opens." Hin).
Defined.

Lemma one_request_in_flight_witness :
  let s := run ASSETS cycling [EditKey "key"; EditText "The gate opens."] battle_playing in
  let es := [ClickNarrate; ClickSfx "door"; Elapse 100; EditText "More."; ClickNarrate;
             HowlEnd 0] in
  let r := ReplyFailure "Failed to fetch" in
  let s1 := step ASSETS cycling ClickNarrate s in
  let s2 := run ASSETS cycling es s1 in
  let s3 := step ASSETS cycling (Settled r) s2 in
  (isLoadingTTS s = false ∧ isSpeaking s = false ∧ apiKey s ≠ "" ∧ narratorText s ≠ ""
   ∧ ∀ r', Settled r' ∉ es)
  ∧ requests s1 = requests s ++ [(apiKey s, narratorText s)]
  ∧ isLoadingTTS s1 = true
  ∧ requests s2 = requests s1
  ∧ isLoadingTTS s2 = true
  ∧ requests s3 = requests s1
  ∧ isLoadingTTS s3 = false.
Proof.
  assert (Hes : ∀ r', Settled r' ∉ [ClickNarrate; ClickSfx "door"; Elapse 100;
                                     EditText "More."; ClickNarrate; HowlEnd 0]).
  { intros r' Hin.
    repeat (apply elem_of_cons in Hin as [Hin|Hin]; [discriminate|]).
    by apply elem_of_nil in Hin. }
  split.
  - split; [reflexivity|]. split; [reflexivity|].
    split; [discriminate|]. split; [discriminate|exact Hes].
  - apply (one_request_in_flight ASSETS cycling
             (run ASSETS cycling [EditKey "key"; EditText "The gate opens."] battle_playing)
             [ClickNarrate; ClickSfx "door"; Elapse 100; EditText "More."; ClickNarrate;
              HowlEnd 0]
             (ReplyFailure "Failed to fetch"));
      [reflexivity|reflexivity|discriminate|discriminate|exact Hes].
Defined.

(** ** One pass through the playlist *)

Section Pass.
Variable assets : Assets.
Variable Math_random : nat → UnitInterval.

(** The state in which the playlist loops, with the track that plays. *)
Lemma pass_step q rendered category m s :
  q ≠ [] → superseded rendered category = false →
  (queueRef s = q ∧ queueIndexRef s = m mod length q
   ∧ ∃ b h, bgmRef s = Some b ∧ howls s !! b = Some h ∧ playing h = true
            ∧ onend h = Some (NextTrack rendered category)
            ∧ src h = TrackUrl (q !! (m mod length q))) →
  let s' := complete_current assets Math_random s in
  queueRef s' = q ∧ queueIndexRef s' = S m mod length q
  ∧ ∃ b h, bgmRef s' = Some b ∧ howls s' !! b = Some h ∧ playing h = true
           ∧ onend h = Some (NextTrack rendered category)
           ∧ src h = TrackUrl (q !! (S m mod length q)).
Proof.
  intros Hq Hg (Hqs & Hi & b & h & Hb & Hh & Hp & Hl & _) s'. subst s'.
  rewrite (complete_current_advances assets Math_random s b h rendered category)
    by done. simpl.
  assert (0 < length q) by (destruct q; [done|simpl; lia]).
  rewrite succ_mod_wrap by done. rewrite Hqs, Hi.
  split; [done|]. split; [done|].
  exists (length (howls s)). eexists. split; [done|].
  split.
  { rewrite <- (length_alter howl_finish (howls s) b). by apply list_lookup_middle. }
  done.
Qed.

(** X16.  After [startPlaylist] has put a category with [k] tracks into
    play, the [m]-th track to play after it is the track at position
    [m mod k] of the queue.  So each pass of [k] tracks plays every track of
    the queue once, in queue order, and the next pass repeats that order. *)
Theorem each_pass_plays_every_track (category : string) (tracks : list string) (s : App) :
  bgm assets !! category = Some tracks → tracks ≠ [] →
  superseded (currentBgmCategory s) category = false →
  let s0 := step assets Math_random (ClickPlaylist category) s in
  let k := length tracks in
  let after m := Nat.iter m (complete_current assets Math_random) s0 in
  queueRef s0 ≡ₚ tracks
  ∧ (∀ m, now_playing (after m) = Some (TrackUrl (queueRef s0 !! (m mod k))))
  ∧ (λ m, now_playing (after m)) <$> seq 0 k
    = (λ file, Some (TrackUrl (Some file))) <$> queueRef s0
  ∧ (λ m, now_playing (after (k + m))) <$> seq 0 k
    = (λ m, now_playing (after m)) <$> seq 0 k.
Proof.
  intros Ht Hne Hg s0 k after.
  set (q := (shuffleArray Math_random tracks (random_calls s)).1).
  assert (Hperm : q ≡ₚ tracks) by apply shuffleArray_Permutation.
  assert (Hqne : q ≠ []).
  { intros Hnil. rewrite Hnil in Hperm. apply Permutation_nil_l in Hperm. done. }
  assert (Hk : length q = k) by by rewrite Hperm.
  assert (Hstart : queueRef s0 = q ∧ queueIndexRef s0 = 0
            ∧ ∃ b h, bgmRef s0 = Some b ∧ howls s0 !! b = Some h ∧ playing h = true
                     ∧ onend h = Some (NextTrack (currentBgmCategory s) category)
                     ∧ src h = TrackUrl (q !! 0)).
  { subst s0. unfold step. cbn [handle].
    rewrite (startPlaylist_starts assets Math_random category tracks s Ht Hne Hg).
    fold q. pose proof (stopBgm_length s) as Hlen.
    set (x := set_bgmRef _ _).
    assert (Hx : howls x !! length (howls s)
                 = Some (music_howl (q !! 0) (currentBgmCategory s) category (now s))).
    { subst x. simpl. apply list_lookup_middle. by rewrite Hlen. }
    destruct (render_cases s x) as [-> | ->].
    - split; [done|]. split; [done|]. eexists _, _. split; [done|]. split; [exact Hx|]. done.
    - rewrite (ducking_playing x (length (howls s))) by done.
      split; [done|]. split; [done|].
      exists (length (howls s)). eexists. split; [done|].
      split.
      { cbn [howls set_howls]. rewrite list_lookup_alter_eq, Hx. reflexivity. }
      done. }
  assert (Hloop : ∀ m,
            queueRef (after m) = q ∧ queueIndexRef (after m) = m mod length q
            ∧ ∃ b h, bgmRef (after m) = Some b ∧ howls (after m) !! b = Some h
                     ∧ playing h = true
                     ∧ onend h = Some (NextTrack (currentBgmCategory s) category)
                     ∧ src h = TrackUrl (q !! (m mod length q))).
  { induction m as [|m IH].
    - destruct Hstart as (Hq0 & Hi0 & Hrest). subst after. simpl.
      rewrite Nat.Div0.mod_0_l. done.
    - subst after. simpl. by apply pass_step. }
  assert (Hnow : ∀ m, now_playing (after m) = Some (TrackUrl (q !! (m mod k)))).
  { intros m. destruct (Hloop m) as (_ & _ & b & h & Hb & Hh & _ & _ & Hs).
    unfold now_playing. rewrite Hb. simpl. rewrite Hh. simpl. by rewrite Hs, Hk. }
  destruct Hstart as (Hq0 & _).
  split; [by rewrite Hq0|]. split; [by rewrite Hq0|]. split.
  - rewrite Hq0. apply list_eq. intros i. rewrite !list_lookup_fmap.
    destruct (decide (i < k)) as [Hlt|Hge].
    + rewrite lookup_seq_lt by done. simpl. rewrite Hnow.
      rewrite Nat.mod_small by done.
      destruct (lookup_lt_is_Some_2 q i ltac:(lia)) as [file ->]. done.
    + rewrite lookup_seq_ge by lia. by rewrite lookup_ge_None_2 by lia.
  - apply list_fmap_ext. intros i m Hm. rewrite !Hnow.
    assert (Hmod : (k + m) mod k = m mod k).
    { rewrite <- (Nat.Div0.add_mod_idemp_l k m k), Nat.Div0.mod_same. done. }
    by rewrite Hmod.
Qed.
End Pass.

Lemma each_pass_plays_every_track_witness :
  let s0 := step ASSETS cycling (ClickPlaylist "serene") (mount None) in
  let after m := Nat.iter m (complete_current ASSETS cycling) s0 in
  (bgm ASSETS !! "serene" = Some ["/assets/rain.mp3"; "/assets/wind.mp3"]
   ∧ ["/assets/rain.mp3"; "/assets/wind.mp3"] ≠ []
   ∧ superseded (currentBgmCategory (mount None)) "serene" = false)
  ∧ queueRef s0 ≡ₚ ["/assets/rain.mp3"; "/assets/wind.mp3"]
  ∧ (∀ m, now_playing (after m) = Some (TrackUrl (queueRef s0 !! (m mod 2))))
  ∧ (λ m, now_playing (after m)) <$> seq 0 2
    = (λ file, Some (TrackUrl (Some file))) <$> queueRef s0
  ∧ (λ m, now_playing (after (2 + m))) <$> seq 0 2
    = (λ m, now_playing (after m)) <$> seq 0 2.
Proof.
  split; [split; [reflexivity|split; [discriminate|reflexivity]]|].
  apply (each_pass_plays_every_track ASSETS cycling "serene"
           ["/assets/rain.mp3"; "/assets/wind.mp3"] (mount None));
    [reflexivity|discriminate|reflexivity].
Defined.

(** ** Every order can come out of the shuffle *)

(** For every index [j] of the range there is a result of
    [Math.random()] that selects it. *)
Lemma exists_draw (i j : nat) : j ≤ i → ∃ r : UnitInterval, random_index r i = j.
Proof.
  intros Hj.
  set (d := Pos.of_nat (i + 1)).
  assert (Hd : Z.pos d = Z.of_nat (i + 1)).
  { subst d. replace (i + 1) with (S i) by lia.
    rewrite <- Pos.of_nat_succ, Zpos_P_of_succ_nat. lia. }
  assert (Hr : Qle_bool 0 (Z.of_nat j # d) && negb (Qle_bool 1 (Z.of_nat j # d)) = true).
  { apply andb_true_intro. split.
    - apply Qle_bool_iff. unfold Qle. simpl. lia.
    - destruct (Qle_bool 1 (Z.of_nat j # d)) eqn:Hle; [|done].
      apply Qle_bool_iff in Hle. unfold Qle in Hle. simpl in Hle. lia. }
  exists (mkUnit (Z.of_nat j # d) Hr).
  unfold random_index. cbn [value]. rewrite <- Hd.
  unfold Qfloor, Qmult, inject_Z. cbn [Qnum Qden].
  rewrite Pos.mul_1_r, Z.div_mul by done. apply Nat2Z.id.
Qed.

Section Reach.
Context {A : Type}.
Implicit Types a p : list A.

Lemma swap_exchange i j a x y :
  a !! i = Some x → a !! j = Some y → swap i j a = <[j := x]> (<[i := y]> a).
Proof. intros Hi Hj. unfold swap. by rewrite Hi, Hj. Qed.

(** The loop, entered at [i] with the elements from [i + 1] on already
    in place, can put the rest in any order. *)
Lemma shuffle_loop_reaches i a p :
  length a = length p → i < length a →
  take (S i) a ≡ₚ take (S i) p → drop (S i) a = drop (S i) p →
  ∃ rs : list UnitInterval,
    ∀ Math_random calls,
      (∀ k r, rs !! k = Some r → Math_random (calls + k) = r) →
      (shuffle_loop Math_random i calls a).1 = p.
Proof.
  revert a. induction i as [|i IH]; intros a Hlen Hi Htake Hdrop.
  - exists []. intros Math_random calls _. simpl.
    destruct a as [|x ta]; [simpl in Hi; lia|].
    destruct p as [|y tp]; [done|].
    simpl in Htake, Hdrop. rewrite !take_0 in Htake. rewrite !drop_0 in Hdrop.
    apply Permutation_singleton_inj in Htake. by subst.
  - destruct (lookup_lt_is_Some_2 p (S i) ltac:(lia)) as [x Hx].
    destruct (lookup_lt_is_Some_2 a (S i) ltac:(lia)) as [y Hy].
    assert (Hin : x ∈ take (S (S i)) a).
    { rewrite Htake. apply elem_of_take. exists (S i). split; [done|lia]. }
    apply elem_of_take in Hin as (j & Hj & Hjlt).
    destruct (exists_draw (S i) j ltac:(lia)) as [r Hr].
    set (a' := swap (S i) j a).
    assert (Ha' : a' = <[j := y]> (<[S i := x]> a)) by by apply swap_exchange.
    assert (Hlen' : length a' = length a) by apply swap_length.
    assert (Hx' : a' !! S i = Some x).
    { rewrite Ha'. destruct (decide (j = S i)) as [->|Hne].
      - rewrite list_lookup_insert_eq by (rewrite length_insert; lia). congruence.
      - rewrite list_lookup_insert_ne by done.
        apply list_lookup_insert_eq. lia. }
    assert (Hdrop' : drop (S (S i)) a' = drop (S (S i)) p).
    { rewrite Ha'. by rewrite !drop_insert_lt by lia. }
    assert (Htake' : take (S (S i)) a' ≡ₚ take (S (S i)) p).
    { rewrite <- Htake. rewrite Ha'. rewrite !take_insert_lt by lia.
      rewrite <- (swap_exchange (S i) j (take (S (S i)) a) y x);
        [apply swap_Permutation| |]; by rewrite lookup_take_lt by lia. }
    assert (Htake1 : take (S i) a' ≡ₚ take (S i) p).
    { rewrite (take_S_r a' (S i) x Hx'), (take_S_r p (S i) x Hx) in Htake'.
      by apply Permutation_app_inv_r in Htake'. }
    assert (Hdrop1 : drop (S i) a' = drop (S i) p).
    { rewrite (drop_S a' x (S i) Hx'), (drop_S p x (S i) Hx). by rewrite Hdrop'. }
    destruct (IH a' ltac:(lia) ltac:(lia) Htake1 Hdrop1) as [rs Hrs].
    exists (r :: rs). intros Math_random calls Hrnd. simpl.
    pose proof (Hrnd 0 r eq_refl) as H0. rewrite Nat.add_0_r in H0.
    rewrite H0, Hr. fold a'.
    apply Hrs. intros k r' Hk. rewrite <- (Hrnd (S k) r' Hk). f_equal. lia.
Qed.

(** X15.  Whatever permutation of the input is wanted, some sequence
    of [Math.random()] results makes [shuffleArray] return it: the shuffle
    can produce every order of the tracks. *)
Theorem shuffleArray_reaches_every_permutation (array p : list A) (calls : nat) :
  array ≡ₚ p →
  ∃ Math_random : nat → UnitInterval, (shuffleArray Math_random array calls).1 = p.
Proof.
  intros Hperm. unfold shuffleArray.
  destruct (decide (length array = 0)) as [Hz|Hnz].
  - apply nil_length_inv in Hz. subst array. apply Permutation_nil_l in Hperm.
    subst p. by exists (λ _, draw_0).
  - pose proof (Permutation_length Hperm) as Hlen.
    assert (Htake : take (S (length array - 1)) array ≡ₚ take (S (length array - 1)) p).
    { replace (S (length array - 1)) with (length array) by lia.
      rewrite take_ge by lia. by rewrite take_ge by lia. }
    assert (Hdrop : drop (S (length array - 1)) array = drop (S (length array - 1)) p).
    { replace (S (length array - 1)) with (length array) by lia.
      rewrite drop_ge by lia. by rewrite drop_ge by lia. }
    destruct (shuffle_loop_reaches (length array - 1) array p Hlen ltac:(lia) Htake Hdrop)
      as [rs Hrs].
    exists (λ n, default draw_0 (rs !! (n - calls))).
    apply Hrs. intros k r Hk.
    replace (calls + k - calls) with k by lia. by rewrite Hk.
Qed.
End Reach.

Lemma shuffleArray_reaches_every_permutation_witness :
  ["a"; "b"; "c"] ≡ₚ ["c"; "a"; "b"]
  ∧ ∃ Math_random : nat → UnitInterval,
      (shuffleArray Math_random ["a"; "b"; "c"] 0).1 = ["c"; "a"; "b"].
Proof.
  assert (Hperm : ["a"; "b"; "c"] ≡ₚ ["c"; "a"; "b"]).
  { symmetry. apply (Permutation_cons_append ["a"; "b"] "c"). }
  split; [exact Hperm|].
  exact (shuffleArray_reaches_every_permutation ["a"; "b"; "c"] ["c"; "a"; "b"] 0 Hperm).
Defined.

(** ** Which [Howl]s an event touches *)

Section Frame.
Variable assets : Assets.
Variable Math_random : nat → UnitInterval.

Lemma stopBgm_touch s id h :
  howls s !! id = Some h →
  howls (stopBgm s) !! id = Some h ∨ bgmRef s = Some id.
Proof.
  intros Hh. destruct (bgmRef s) as [b|] eqn:Hb; [|left; by rewrite stopBgm_idle].
  rewrite (stopBgm_playing s b Hb). simpl.
  destruct (decide (b = id)) as [->|Hne]; [by right|].
  left. by rewrite list_lookup_alter_ne.
Qed.

Lemma playTrackInQueue_touch rendered category s id h :
  howls s !! id = Some h →
  howls (playTrackInQueue rendered category s) !! id = Some h.
Proof.
  intros Hh. destruct (superseded rendered category) eqn:Hg.
  - by rewrite playTrackInQueue_superseded.
  - rewrite playTrackInQueue_plays by done. simpl. by apply lookup_app_l_Some.
Qed.

Lemma playTrackInQueue_bgmRef rendered category s b :
  bgmRef (playTrackInQueue rendered category s) = Some b →
  bgmRef s = Some b ∨ b = length (howls s).
Proof.
  destruct (superseded rendered category) eqn:Hg.
  - rewrite playTrackInQueue_superseded by done. by left.
  - rewrite playTrackInQueue_plays by done. simpl. intros [= <-]. by right.
Qed.

Lemma handle_touch e s id h :
  howls s !! id = Some h →
  howls (handle assets Math_random e s) !! id = Some h
  ∨ bgmRef s = Some id ∨ narratorRef s = Some id
  ∨ (∃ due, (due, id) ∈ timers s)
  ∨ (e = HowlEnd id ∧ playing h = true).
Proof.
  intros Hh.
  destruct e as [category| |type| |val|val|r|id'|id'|ms]; cbn [handle].
  - unfold startPlaylist.
    destruct (stopBgm_touch s id h Hh) as [Hs|Hb]; [|by right; left].
    left. destruct (bgm assets !! category) as [[|t0 tracks]|]; [done| |done].
    by apply playTrackInQueue_touch.
  - rewrite handleStopClick_eq. simpl.
    destruct (stopBgm_touch s id h Hh) as [Hs|Hb]; [by left|by right; left].
  - left. unfold playSfx. destruct (truthy _); [|done]. simpl.
    rewrite alter_new_howl. by apply lookup_app_l_Some.
  - left. destruct (_ || _); [done|]. unfold handleNarrate. by repeat case_bool_decide.
  - by left.
  - by left.
  - destruct (isLoadingTTS s); [|by left]. unfold handleNarrate_resume.
    destruct r as [message|byteArray|message]; [by left| |by left].
    rewrite playAudioFromBase64_eq. simpl.
    destruct (narratorRef s) as [p|] eqn:Hp.
    + destruct (decide (p = id)) as [->|Hne]; [by right; right; left|].
      left. apply lookup_app_l_Some. by rewrite list_lookup_alter_ne.
    + left. by apply lookup_app_l_Some.
  - destruct (howls s !! id') as [h'|] eqn:Hid'; [|left; by rewrite emit_end_idle; auto].
    destruct (playing h') eqn:Hp';
      [|left; by rewrite emit_end_idle; [|right; rewrite Hid'; simpl; congruence]].
    destruct (decide (id' = id)) as [->|Hne].
    { right. right. right. right. split; [done|]. congruence. }
    left.
    assert (Hfin : alter howl_finish id' (howls s) !! id = Some h)
      by by rewrite list_lookup_alter_ne.
    unfold emit_end. rewrite Hid', Hp'.
    destruct (onend h') as [[rendered category|]|]; [|done|done].
    unfold onend_NextTrack. apply playTrackInQueue_touch.
    simpl. by destruct (_ <=? _).
  - left. unfold emit_play. destruct (howls s !! id'); [|done]. by destruct (_ && _).
  - rewrite elapse_eq. simpl. rewrite run_timers_lookup.
    destruct (due_for (now s + ms) id (timers s)) eqn:Hdue; [|by left].
    destruct (due_for_pending _ _ _ Hdue) as (due & Hin & _).
    right. right. right. left. by exists due.
Qed.

(** Only the handlers of the playlist write [bgmRef], and what they
    write is empty or new. *)
Lemma handle_bgmRef e s b :
  bgmRef (handle assets Math_random e s) = Some b →
  bgmRef s = Some b ∨ length (howls s) ≤ b.
Proof.
  destruct e as [category| |type| |val|val|r|id'|id'|ms]; cbn [handle].
  - unfold startPlaylist. destruct (stopBgm_fields s) as (Hnone & _).
    pose proof (stopBgm_length s) as Hlen.
    destruct (bgm assets !! category) as [[|t0 tracks]|]; [congruence| |congruence].
    intros Hb. apply playTrackInQueue_bgmRef in Hb as [Hb| ->].
    + simpl in Hb. congruence.
    + right. simpl. lia.
  - rewrite handleStopClick_eq. simpl. destruct (stopBgm_fields s) as (-> & _). done.
  - unfold playSfx. destruct (truthy _); by left.
  - destruct (_ || _); [by left|]. unfold handleNarrate. repeat case_bool_decide; by left.
  - by left.
  - by left.
  - destruct (isLoadingTTS s); [|by left]. unfold handleNarrate_resume.
    destruct r; rewrite ?playAudioFromBase64_eq; by left.
  - unfold emit_end. destruct (howls s !! id') as [h'|]; [|by left].
    destruct (playing h'); [|by left].
    destruct (onend h') as [[rendered category|]|]; [|by left|by left].
    unfold onend_NextTrack. intros Hb.
    apply playTrackInQueue_bgmRef in Hb as [Hb| ->].
    + left. simpl in Hb. by destruct (_ <=? _).
    + right. destruct (_ <=? _); simpl; by rewrite length_alter.
  - unfold emit_play. destruct (howls s !! id'); [|by left]. destruct (_ && _); by left.
  - rewrite elapse_eq. by left.
Qed.

Lemma step_frame (e : Event) (s : App) (id : nat) (h : Howl) :
  howls s !! id = Some h →
  bgmRef s ≠ Some id → narratorRef s ≠ Some id →
  (∀ due, (due, id) ∉ timers s) →
  e ≠ HowlEnd id ∨ playing h = false →
  howls (step assets Math_random e s) !! id = Some h.
Proof.
  intros Hh Hb Hn Htm He.
  assert (Hhandle : howls (handle assets Math_random e s) !! id = Some h).
  { destruct (handle_touch e s id h Hh) as [?|[?|[?|[[due Hin]|[He1 He2]]]]];
      [done|done|done|by destruct (Htm due)|].
    destruct He as [He|He]; congruence. }
  unfold step.
  destruct (render_cases s (handle assets Math_random e s)) as [-> | ->]; [done|].
  destruct (ducking_fields (handle assets Math_random e s)) as (_ & _ & Hother & _).
  rewrite Hother; [done|].
  intros Hb'. apply handle_bgmRef in Hb' as [Hb'|Hge]; [done|].
  apply lookup_lt_Some in Hh. lia.
Qed.

(** X17.  An event changes only the [Howl]s it names.  A [Howl] that
    exists, is neither in [bgmRef] nor in [narratorRef], is not the target
    of a pending timer and is not the one whose sound ends, is after the
    event exactly what it was before. *)
Theorem step_leaves_other_howls_alone (e : Event) (s : App) (id : nat) (h : Howl) :
  howls s !! id = Some h →
  bgmRef s ≠ Some id → narratorRef s ≠ Some id →
  (∀ due, (due, id) ∉ timers s) →
  e ≠ HowlEnd id ∨ playing h = false →
  howls (step assets Math_random e s) !! id = Some h.
Proof. apply step_frame. Qed.


End Frame.

Lemma step_leaves_other_howls_alone_witness :
  let s := run ASSETS cycling [ClickPlaylist "battle"; ClickSfx "door"] (mount None) in
  let h := sfx_howl "/assets/door_creak.mp3" in
  (howls s !! 1 = Some h ∧ bgmRef s ≠ Some 1 ∧ narratorRef s ≠ Some 1
   ∧ (∀ due, (due, 1) ∉ timers s)
   ∧ (ClickStop ≠ HowlEnd 1 ∨ playing h = false))
  ∧ howls (step ASSETS cycling ClickStop s) !! 1 = Some h.
Proof.
  assert (Htm : ∀ due, (due, 1) ∉ timers (run ASSETS cycling
                  [ClickPlaylist "battle"; ClickSfx "door"] (mount None))).
  { intros due Hin. vm_compute in Hin. by apply elem_of_nil in Hin. }
  split.
  - split; [reflexivity|]. split; [discriminate|]. split; [discriminate|].
    split; [exact Htm|left; discriminate].
  - apply (step_leaves_other_howls_alone ASSETS cycling ClickStop
             (run ASSETS cycling [ClickPlaylist "battle"; ClickSfx "door"] (mount None))
             1 (sfx_howl "/assets/door_creak.mp3"));
      [reflexivity|discriminate|discriminate|exact Htm|left; discriminate].
Defined.

